(** * Client-side behaviour of the portfolio page ([js/script.js])

    A shallow embedding of the event handlers wired by [script.js] and the
    properties stated about them: theme resolution and toggling, active
    navigation highlighting, contact-form validation, the stat counter
    animation and the one-shot reveal observers.

    Conventions.
    - A JavaScript string whose characters are inspected (form fields, the
      text of a counter) is a list of UTF-16 code units, [list N]; strings
      that are only compared or emitted (theme names, ids, messages) are
      [string].
    - The DOM is modelled by the attributes the handlers read and write.
    - Every handler is a function from the state before the event to the
      state after it.
    - Pixel offsets are integers; the numbers of the counter animation are
      double-precision floats. *)

From Stdlib Require Import ZArith Zpower String Ascii List Lia Bool.
From Stdlib Require Import DecimalString Floats SpecFloat.
From stdpp Require Import base decidable option list gmap sets strings.
Import ListNotations.

#[local] Open Scope string_scope.
#[local] Open Scope list_scope.

(* ================================================================== *)
(** * JavaScript strings *)
(* ================================================================== *)

Module JS.

(** A string as the sequence of its UTF-16 code units. *)
Definition jsstring := list N.

(** An ASCII literal of the source as a [jsstring]. *)
Definition js (s : string) : jsstring :=
  map N_of_ascii (list_ascii_of_string s).

(** [WhiteSpace] and [LineTerminator] of ECMAScript: the code units removed by
    [String.prototype.trim] and matched by [\s]. *)
Definition is_whitespace (c : N) : bool :=
  (  (9 <=? c) && (c <=? 13)          (* TAB, LF, VT, FF, CR *)
  || (c =? 32)                        (* SPACE *)
  || (c =? 160)                       (* NO-BREAK SPACE *)
  || (c =? 5760)                      (* U+1680 *)
  || (8192 <=? c) && (c <=? 8202)     (* U+2000 .. U+200A *)
  || (c =? 8232) || (c =? 8233)       (* LINE / PARAGRAPH SEPARATOR *)
  || (c =? 8239) || (c =? 8287)       (* U+202F, U+205F *)
  || (c =? 12288)                     (* U+3000 *)
  || (c =? 65279))%N.                 (* U+FEFF *)

(** [\d] without the [u] flag: the ten ASCII digits. *)
Definition is_digit (c : N) : bool := ((48 <=? c) && (c <=? 57))%N.

Fixpoint drop_while {A} (p : A -> bool) (l : list A) : list A :=
  match l with
  | [] => []
  | x :: l' => if p x then drop_while p l' else l
  end.

Definition trimStart (s : jsstring) : jsstring := drop_while is_whitespace s.
Definition trimEnd (s : jsstring) : jsstring :=
  rev (drop_while is_whitespace (rev s)).

(** [String.prototype.trim] *)
Definition trim (s : jsstring) : jsstring := trimEnd (trimStart s).

(** [!s] on a string: only the empty string is falsy. *)
Definition is_empty (s : jsstring) : bool :=
  match s with [] => true | _ => false end.

(** [Array.prototype.join] on an array of strings. *)
Fixpoint join (sep : string) (l : list string) : string :=
  match l with
  | [] => ""
  | [x] => x
  | x :: l' => x ++ sep ++ join sep l'
  end.

Example trim_both_ends : trim (js "  a b  ") = js "a b".
Proof. reflexivity. Qed.

Example trim_blank : trim [9; 10; 13; 32; 160; 8232; 65279]%N = [].
Proof. reflexivity. Qed.

(** ZERO WIDTH SPACE (U+200B) is not white space. *)
Example trim_keeps_zero_width_space : trim [32; 8203; 32]%N = [8203]%N.
Proof. reflexivity. Qed.

End JS.

(* ================================================================== *)
(** * Theme toggle ([initTheme], [updateThemeIcon]) *)
(* ================================================================== *)

Module Theme.

(** The glyph shown by the toggle button. *)
Inductive Glyph := Sun | Moon.

(** The part of the page and of the browser the theme code touches.
    [storage] is [localStorage.getItem('theme')]: [None] is [null]. *)
Record State := mkState {
  currentTheme : string;          (* the closure variable of [initTheme] *)
  dataTheme    : string;          (* <html data-theme=...>, the displayed theme *)
  iconText     : Glyph;           (* themeIcon.textContent *)
  storage      : option string    (* localStorage, key 'theme' *)
}.

(** [icon.textContent = theme === 'dark' ? sun : moon] *)
Definition updateThemeIcon (theme : string) : Glyph :=
  if decide (theme = "dark") then Sun else Moon.

(** JavaScript truthiness of the result of [getItem]: [null] and the empty
    string are falsy. *)
Definition truthy (v : option string) : bool :=
  match v with
  | None => false
  | Some s => negb (String.eqb s "")
  end.

(** [a || b] for [a] a string or [null] and [b] a string. *)
Definition js_or (a : option string) (b : string) : string :=
  match a with
  | Some s => if truthy a then s else b
  | None => b
  end.

Definition system_theme (prefersDark : bool) : string :=
  if prefersDark then "dark" else "light".

(** The body of [initTheme] up to the registration of the listeners. *)
Definition initTheme (savedTheme : option string) (prefersDark : bool) : State :=
  let currentTheme := js_or savedTheme (system_theme prefersDark) in
  {| currentTheme := currentTheme;
     dataTheme := currentTheme;
     iconText := updateThemeIcon currentTheme;
     storage := savedTheme |}.

(** [currentTheme === 'light' ? 'dark' : 'light'] *)
Definition flip (theme : string) : string :=
  if decide (theme = "light") then "dark" else "light".

(** The click listener of the toggle button. *)
Definition on_click (s : State) : State :=
  let currentTheme := flip (currentTheme s) in
  {| currentTheme := currentTheme;
     dataTheme := currentTheme;
     iconText := updateThemeIcon currentTheme;
     storage := Some currentTheme |}.

(** The [change] listener of the [prefers-color-scheme] media query;
    [matches] is [e.matches]. *)
Definition on_system_change (matches : bool) (s : State) : State :=
  if negb (truthy (storage s)) then
    let newTheme := system_theme matches in
    {| currentTheme := currentTheme s;
       dataTheme := newTheme;
       iconText := updateThemeIcon newTheme;
       storage := storage s |}
  else s.

(** The events the theme code reacts to. *)
Inductive Event :=
| Click
| SystemChange (matches : bool).

Definition handle (s : State) (e : Event) : State :=
  match e with
  | Click => on_click s
  | SystemChange m => on_system_change m s
  end.

Definition run (es : list Event) (s : State) : State := fold_left handle es s.

(** The two values of the theme enumeration. *)
Definition is_theme (t : string) : Prop := t = "light" \/ t = "dark".

(** The initial theme as the specification words it: the persisted value if
    present, else the system preference. *)
Definition spec_resolveInitialTheme (saved : option string) (prefersDark : bool)
  : string :=
  match saved with
  | Some s => s
  | None => if prefersDark then "dark" else "light"
  end.

(** ** Basic facts *)

Lemma flip_is_theme t : is_theme (flip t).
Proof. unfold flip, is_theme. case_decide; auto. Qed.

Lemma flip_flip t : is_theme t -> flip (flip t) = t.
Proof. intros [-> | ->]; reflexivity. Qed.

Lemma is_theme_truthy t : is_theme t -> truthy (Some t) = true.
Proof. intros [-> | ->]; reflexivity. Qed.

Lemma system_theme_is_theme b : is_theme (system_theme b).
Proof. destruct b; [right | left]; reflexivity. Qed.

Lemma truthy_nonempty s : truthy (Some s) = true <-> s <> "".
Proof.
  unfold truthy. rewrite negb_true_iff. split.
  - intros H ->. discriminate.
  - intros H. apply String.eqb_neq. exact H.
Qed.

(** The store holds a theme: the state of affairs after any click. *)
Definition persisted (s : State) : Prop :=
  exists t, storage s = Some t /\ is_theme t.

Lemma on_click_persisted s : persisted (on_click s).
Proof. exists (flip (currentTheme s)). split; [reflexivity | apply flip_is_theme]. Qed.

Lemma on_system_change_persisted m s :
  persisted s -> on_system_change m s = s.
Proof.
  intros (t & Hs & Ht). unfold on_system_change.
  rewrite Hs, (is_theme_truthy t Ht). reflexivity.
Qed.

Lemma handle_persisted s e : persisted s -> persisted (handle s e).
Proof.
  intros H. destruct e as [| m]; simpl.
  - apply on_click_persisted.
  - rewrite on_system_change_persisted; assumption.
Qed.

Lemma run_persisted es : forall s, persisted s -> persisted (run es s).
Proof.
  induction es as [| e es IH]; intros s H; simpl; [assumption |].
  apply IH, handle_persisted, H.
Qed.

(** System changes never touch the closure variable or the store. *)
Lemma on_system_change_currentTheme m s :
  currentTheme (on_system_change m s) = currentTheme s.
Proof. unfold on_system_change. destruct (negb _); reflexivity. Qed.

Lemma on_system_change_storage m s :
  storage (on_system_change m s) = storage s.
Proof. unfold on_system_change. destruct (negb _); reflexivity. Qed.

Definition system_changes (ms : list bool) : list Event := map SystemChange ms.

Lemma run_system_changes ms : forall s,
  currentTheme (run (system_changes ms) s) = currentTheme s /\
  storage (run (system_changes ms) s) = storage s.
Proof.
  induction ms as [| m ms IH]; intros s; simpl; [split; reflexivity |].
  destruct (IH (on_system_change m s)) as [Hc Hs].
  unfold run in *. rewrite Hc, Hs.
  split; [apply on_system_change_currentTheme | apply on_system_change_storage].
Qed.

(** ** Initial resolution *)

(** The empty string is a value [getItem] can return, and it is falsy. *)
Lemma initTheme_truthy_saved s p :
  s <> "" -> dataTheme (initTheme (Some s) p) = s.
Proof.
  intros H. destruct (truthy_nonempty s) as [_ Ht].
  unfold initTheme; cbn [dataTheme]. unfold js_or.
  rewrite (Ht H). reflexivity.
Qed.

(** C1, as stated, fails when the persisted value is the empty string: a
    value is present under the key, yet the displayed theme is the system
    preference, because [savedTheme || ...] tests truthiness and not
    presence. *)
Lemma initTheme_empty_saved_counterexample :
  dataTheme (initTheme (Some "") true) = "dark" /\
  dataTheme (initTheme (Some "") true) <> spec_resolveInitialTheme (Some "") true.
Proof. split; [reflexivity | discriminate]. Qed.

(** C1 (amended): at startup the displayed theme (and the in-memory current
    theme) equals the persisted value when one is present and non-empty,
    otherwise ["dark"] when the system reports a dark preference, otherwise
    ["light"]; with no persisted value and a dark system preference the
    initial theme is dark. *)
Theorem initTheme_resolution (saved : option string) (prefersDark : bool) :
  dataTheme (initTheme saved prefersDark) =
    match saved with
    | Some s => if decide (s = "")
                then (if prefersDark then "dark" else "light")
                else s
    | None => if prefersDark then "dark" else "light"
    end
  /\ currentTheme (initTheme saved prefersDark)
     = dataTheme (initTheme saved prefersDark)
  /\ storage (initTheme saved prefersDark) = saved
  /\ dataTheme (initTheme None true) = "dark".
Proof.
  repeat split.
  destruct saved as [s |]; [| reflexivity].
  case_decide as Hs.
  - subst s. reflexivity.
  - apply initTheme_truthy_saved, Hs.
Qed.

(** ** Toggling *)

(** The store as the external interface describes it: unset, or one of the
    two theme names. *)
Definition well_formed_store (saved : option string) : Prop :=
  match saved with
  | Some t => is_theme t
  | None => True
  end.

(** The in-memory theme is light or dark from the start when the store is
    well formed, and in any case from the first click on. *)
Lemma initTheme_is_theme saved p :
  well_formed_store saved -> is_theme (currentTheme (initTheme saved p)).
Proof.
  destruct saved as [t |]; intros H.
  - unfold initTheme; cbn [currentTheme]. unfold js_or.
    rewrite (is_theme_truthy t H). exact H.
  - apply system_theme_is_theme.
Qed.

(** On a well-formed store the resolution is the one the specification
    words. *)
Lemma initTheme_well_formed saved p :
  well_formed_store saved ->
  dataTheme (initTheme saved p) = spec_resolveInitialTheme saved p.
Proof.
  destruct saved as [t |]; intros H; [| destruct p; reflexivity].
  apply initTheme_truthy_saved. destruct H as [-> | ->]; discriminate.
Qed.

Lemma handle_is_theme s e :
  is_theme (currentTheme s) -> is_theme (currentTheme (handle s e)).
Proof.
  destruct e as [| m]; simpl; intros H.
  - apply flip_is_theme.
  - rewrite on_system_change_currentTheme. exact H.
Qed.

Lemma run_is_theme es : forall s,
  is_theme (currentTheme s) -> is_theme (currentTheme (run es s)).
Proof.
  induction es as [| e es IH]; intros s H; simpl; [exact H |].
  apply IH, handle_is_theme, H.
Qed.

Lemma after_click_is_theme es s : is_theme (currentTheme (run es (on_click s))).
Proof. apply run_is_theme. simpl. apply flip_is_theme. Qed.

(** Two clicks read and write the closure variable: from a current theme
    that is light or dark they set it, the displayed theme and the store to
    what the closure variable held. *)
Lemma on_click_twice (s : State) :
  is_theme (currentTheme s) ->
  dataTheme (on_click (on_click s)) = currentTheme s /\
  currentTheme (on_click (on_click s)) = currentTheme s /\
  storage (on_click (on_click s)) = Some (currentTheme s) /\
  storage (on_click (on_click s)) <> storage (on_click s).
Proof.
  intros H. simpl. rewrite (flip_flip _ H).
  repeat split. destruct H as [-> | ->]; discriminate.
Qed.

(** The displayed theme is the one the closure variable holds. *)
Definition in_sync (s : State) : Prop := dataTheme s = currentTheme s.

Lemma initTheme_in_sync saved p : in_sync (initTheme saved p).
Proof. reflexivity. Qed.

Lemma on_click_in_sync s : in_sync (on_click s).
Proof. reflexivity. Qed.

(** Once a theme is stored, later events keep the two in step. *)
Lemma handle_persisted_in_sync s e :
  persisted s -> in_sync s -> in_sync (handle s e).
Proof.
  intros Hp H. destruct e as [| m]; simpl.
  - apply on_click_in_sync.
  - rewrite (on_system_change_persisted m s Hp). exact H.
Qed.

Lemma run_persisted_in_sync es : forall s,
  persisted s -> in_sync s -> in_sync (run es s).
Proof.
  induction es as [| e es IH]; intros s Hp H; simpl; [exact H |].
  apply IH; [apply handle_persisted, Hp | apply handle_persisted_in_sync; assumption].
Qed.

(** C5, as stated, fails in a state the page reaches from an empty store: the
    theme resolved at startup is light, the system turns dark, and the
    displayed theme is dark while the closure variable still holds light.
    Two clicks then leave the page on light, not on the dark theme it
    displayed, and the store holds light. *)
Lemma toggle_twice_counterexample :
  let s := run [SystemChange true] (initTheme None false) in
  is_theme (currentTheme s) /\
  dataTheme s = "dark" /\
  dataTheme (on_click (on_click s)) = "light" /\
  dataTheme (on_click (on_click s)) <> dataTheme s /\
  storage (on_click (on_click s)) <> Some (dataTheme s).
Proof.
  cbv zeta. repeat split; try discriminate. left; reflexivity.
Qed.

(** C5 (amended): from any state in which the displayed theme is the
    in-memory current theme, light or dark, two clicks on the toggle bring
    the displayed theme back to its original value, and the store ends up
    holding the value written by the second click, which is the original
    theme (the first click had stored the other one).  The page is in such a
    state at startup on a store that is unset or holds a theme, and after a
    click whatever clicks and system changes follow it. *)
Theorem toggle_twice_roundtrip_in_sync (s : State) :
  is_theme (currentTheme s) ->
  in_sync s ->
  (dataTheme (on_click (on_click s)) = dataTheme s /\
   currentTheme (on_click (on_click s)) = currentTheme s /\
   storage (on_click (on_click s)) = Some (dataTheme s) /\
   storage (on_click (on_click s)) <> storage (on_click s))
  /\ (forall saved p, well_formed_store saved ->
        is_theme (currentTheme (initTheme saved p)) /\ in_sync (initTheme saved p))
  /\ (forall s0 es,
        is_theme (currentTheme (run es (on_click s0))) /\
        in_sync (run es (on_click s0))).
Proof.
  intros H Hs. unfold in_sync in Hs.
  destruct (on_click_twice s H) as (Hd & Hc & Hst & Hne).
  split; [| split].
  - rewrite Hs. repeat split; assumption.
  - intros saved p Hw. split; [apply initTheme_is_theme, Hw | apply initTheme_in_sync].
  - intros s0 es. split; [apply after_click_is_theme |].
    apply run_persisted_in_sync; [apply on_click_persisted | apply on_click_in_sync].
Qed.

Lemma toggle_twice_roundtrip_in_sync_witness :
  dataTheme (on_click (on_click (initTheme None true))) = "dark" /\
  storage (on_click (on_click (initTheme None true))) = Some "dark".
Proof.
  assert (H : is_theme (currentTheme (initTheme None true)))
    by (right; reflexivity).
  destruct (toggle_twice_roundtrip_in_sync (initTheme None true) H
              (initTheme_in_sync None true)) as ((Hd & _ & Hs & _) & _).
  split; [exact Hd | exact Hs].
Defined.

(** ** System-preference changes *)

Definition is_click (e : Event) : bool :=
  match e with Click => true | SystemChange _ => false end.

Lemma run_persisted_ignores_system es : forall s,
  persisted s -> run es s = run (List.filter is_click es) s.
Proof.
  induction es as [| e es IH]; intros s H; [reflexivity |].
  destruct e as [| m]; simpl.
  - apply IH, on_click_persisted.
  - rewrite (on_system_change_persisted m s H). apply IH, H.
Qed.

(** C6: once the toggle has been clicked, whatever clicks and system changes
    follow, a system-preference change event alters neither the displayed
    theme nor the stored preference (it leaves the whole state as it is), so
    the state reached is the one reached by the clicks alone. *)
Theorem persisted_overrides_system (s0 : State) (es : list Event) (matches : bool) :
  dataTheme (on_system_change matches (run es (on_click s0)))
    = dataTheme (run es (on_click s0)) /\
  storage (on_system_change matches (run es (on_click s0)))
    = storage (run es (on_click s0)) /\
  run es (on_click s0) = run (List.filter is_click es) (on_click s0).
Proof.
  assert (H : persisted (run es (on_click s0)))
    by apply run_persisted, on_click_persisted.
  rewrite (on_system_change_persisted matches _ H).
  repeat split. apply run_persisted_ignores_system, on_click_persisted.
Qed.

(** C9: the system-change listener leaves the closure variable alone; with
    nothing persisted, after any system changes the next click displays and
    persists the opposite of the theme resolved at initialisation, and that
    can be the theme already on display (resolved light, system turns dark,
    click: still dark). *)
Theorem system_change_desynchronises :
  (forall m s, currentTheme (on_system_change m s) = currentTheme s) /\
  (forall prefersDark ms,
     let s := run (system_changes ms) (initTheme None prefersDark) in
     let opposite := if prefersDark then "light" else "dark" in
     currentTheme s = dataTheme (initTheme None prefersDark) /\
     storage s = None /\
     dataTheme (on_click s) = opposite /\
     currentTheme (on_click s) = opposite /\
     storage (on_click s) = Some opposite) /\
  (let s := on_system_change true (initTheme None false) in
   dataTheme s = "dark" /\ dataTheme (on_click s) = dataTheme s).
Proof.
  split; [exact on_system_change_currentTheme |].
  split; [| split; reflexivity].
  intros p ms s opposite.
  destruct (run_system_changes ms (initTheme None p)) as [Hc Hs].
  fold s in Hc, Hs. simpl in Hc, Hs.
  unfold on_click; simpl. rewrite Hc.
  repeat split; try assumption; destruct p; reflexivity.
Qed.

(** ** More about the theme handlers *)

(** The states the page can be in: those reached from [initTheme] by clicks
    and system changes. *)
Definition reached (saved : option string) (prefersDark : bool)
  (es : list Event) : State :=
  run es (initTheme saved prefersDark).

Definition icon_in_step (s : State) : Prop :=
  iconText s = updateThemeIcon (dataTheme s).

Lemma handle_icon_in_step s e : icon_in_step s -> icon_in_step (handle s e).
Proof.
  intros H. destruct e as [| m]; [reflexivity |].
  simpl. unfold on_system_change. destruct (negb _); [reflexivity | exact H].
Qed.

Lemma run_icon_in_step es : forall s, icon_in_step s -> icon_in_step (run es s).
Proof.
  induction es as [| e es IH]; intros s H; [exact H |].
  apply IH, handle_icon_in_step, H.
Qed.

(** X1: in every state the page reaches, the icon of the toggle is the one of
    the displayed theme: the sun exactly when the displayed theme is dark,
    the moon otherwise. *)
Theorem icon_follows_displayed_theme
  (saved : option string) (prefersDark : bool) (es : list Event) :
  (iconText (reached saved prefersDark es) = Sun
     <-> dataTheme (reached saved prefersDark es) = "dark") /\
  (iconText (reached saved prefersDark es) = Moon
     <-> dataTheme (reached saved prefersDark es) <> "dark").
Proof.
  assert (H : icon_in_step (reached saved prefersDark es))
    by (apply run_icon_in_step; reflexivity).
  unfold icon_in_step, updateThemeIcon in H. rewrite H.
  case_decide as E; split; split; intros; congruence.
Qed.

(** The displayed and the in-memory theme are the stored value, whenever one
    that counts is stored. *)
Definition stored_is_shown (s : State) : Prop :=
  forall t, storage s = Some t -> t <> "" -> dataTheme s = t /\ currentTheme s = t.

Lemma initTheme_stored_is_shown saved p : stored_is_shown (initTheme saved p).
Proof.
  intros t Hs Ht. simpl in Hs. subst saved.
  unfold initTheme; cbn [dataTheme currentTheme]. unfold js_or.
  rewrite (proj2 (truthy_nonempty t) Ht). split; reflexivity.
Qed.

Lemma handle_stored_is_shown s e : stored_is_shown s -> stored_is_shown (handle s e).
Proof.
  intros H. destruct e as [| m]; simpl.
  - intros t Hs _. simpl in Hs. injection Hs as <-. split; reflexivity.
  - unfold on_system_change. destruct (truthy (storage s)) eqn:E; simpl; [exact H |].
    intros t Hs Ht. simpl in Hs. rewrite Hs in E.
    rewrite (proj2 (truthy_nonempty t) Ht) in E. discriminate.
Qed.

Lemma run_stored_is_shown es : forall s, stored_is_shown s -> stored_is_shown (run es s).
Proof.
  induction es as [| e es IH]; intros s H; [exact H |].
  apply IH, handle_stored_is_shown, H.
Qed.

(** X2: in every state the page reaches, a non-empty stored value is the
    theme on display and the in-memory theme. *)
Theorem stored_theme_is_displayed
  (saved : option string) (prefersDark : bool) (es : list Event) (t : string) :
  storage (reached saved prefersDark es) = Some t ->
  t <> "" ->
  dataTheme (reached saved prefersDark es) = t /\
  currentTheme (reached saved prefersDark es) = t.
Proof.
  apply (run_stored_is_shown es), initTheme_stored_is_shown.
Qed.

Lemma stored_theme_is_displayed_witness :
  dataTheme (reached None false [SystemChange true; Click; SystemChange false])
  = "dark".
Proof.
  refine (proj1 (stored_theme_is_displayed None false
                   [SystemChange true; Click; SystemChange false] "dark" _ _)).
  - reflexivity.
  - discriminate.
Defined.

Lemma run_without_click es : forall s,
  existsb is_click es = false ->
  storage (run es s) = storage s /\ currentTheme (run es s) = currentTheme s.
Proof.
  induction es as [| e es IH]; intros s H; [split; reflexivity |].
  destruct e as [| m]; simpl in H; [discriminate |].
  destruct (IH (on_system_change m s) H) as [Hs Hc].
  change (run (SystemChange m :: es) s) with (run es (on_system_change m s)).
  rewrite Hs, Hc.
  split; [apply on_system_change_storage | apply on_system_change_currentTheme].
Qed.

Lemma run_with_click es : forall s,
  existsb is_click es = true -> persisted (run es s).
Proof.
  induction es as [| e es IH]; intros s H; [discriminate |].
  destruct e as [| m]; simpl.
  - apply run_persisted, on_click_persisted.
  - apply IH. exact H.
Qed.

(** X3: only a click writes the store, and nothing ever clears it: after any
    events the store is empty exactly when it was empty at first and no click
    occurred; without a click it is as it was, and after a click it holds
    "light" or "dark". *)
Theorem store_written_by_clicks_only (s : State) (es : list Event) :
  (storage (run es s) = None
     <-> storage s = None /\ existsb is_click es = false) /\
  (existsb is_click es = false -> storage (run es s) = storage s) /\
  (existsb is_click es = true ->
     storage (run es s) = Some "light" \/ storage (run es s) = Some "dark").
Proof.
  assert (Hclick : existsb is_click es = true ->
            storage (run es s) = Some "light" \/ storage (run es s) = Some "dark").
  { intros H. destruct (run_with_click es s H) as (t & -> & [-> | ->]); auto. }
  split; [| split; [apply (run_without_click es s) | exact Hclick]].
  destruct (existsb is_click es) eqn:E.
  - split; [| intros [_ ?]; discriminate].
    intros H. destruct (Hclick eq_refl) as [H' | H']; congruence.
  - destruct (run_without_click es s E) as [-> _]. tauto.
Qed.

(** X4: while nothing (or the empty string) is stored, the displayed theme
    is the one of the latest system change, whatever the changes before
    it. *)
Theorem unset_follows_system (prefersDark : bool) (ms : list bool) (m : bool) :
  dataTheme (reached None prefersDark (system_changes (ms ++ [m])))
    = (if m then "dark" else "light") /\
  dataTheme (reached (Some "") prefersDark (system_changes (ms ++ [m])))
    = (if m then "dark" else "light").
Proof.
  assert (G : forall saved, truthy saved = false ->
            dataTheme (reached saved prefersDark (system_changes (ms ++ [m])))
            = if m then "dark" else "light").
  { intros saved Hf. unfold reached, system_changes, run.
    rewrite map_app, fold_left_app. simpl.
    fold (run (map SystemChange ms) (initTheme saved prefersDark)).
    fold (system_changes ms).
    unfold on_system_change.
    destruct (run_system_changes ms (initTheme saved prefersDark)) as [_ Hs].
    rewrite Hs. simpl. rewrite Hf. destruct m; reflexivity. }
  split; apply G; reflexivity.
Qed.

(** X5: n clicks from a light or dark theme leave the theme as it was when n
    is even and turn it into the other one when n is odd; from the first
    click on, the displayed and the stored theme are that theme. *)
Theorem clicks_alternate (s : State) (n : nat) :
  is_theme (currentTheme s) ->
  let other := if decide (currentTheme s = "light") then "dark" else "light" in
  let expected := if Nat.even n then currentTheme s else other in
  currentTheme (Nat.iter n on_click s) = expected /\
  (n <> 0%nat ->
     dataTheme (Nat.iter n on_click s) = expected /\
     storage (Nat.iter n on_click s) = Some expected).
Proof.
  intros Ht other expected.
  assert (Hc : currentTheme (Nat.iter n on_click s) = expected).
  { unfold expected, other. induction n as [| n IH]; [reflexivity |].
    rewrite Nat.even_succ, <- Nat.negb_even. simpl. rewrite IH.
    destruct (Nat.even n); simpl; [reflexivity |].
    apply (flip_flip _ Ht). }
  split; [exact Hc |].
  intros Hn. destruct n as [| n]; [contradiction |].
  simpl in *. rewrite <- Hc. split; reflexivity.
Qed.

Lemma clicks_alternate_witness :
  dataTheme (Nat.iter 3 on_click (initTheme None true)) = "light".
Proof.
  assert (H : is_theme (currentTheme (initTheme None true)))
    by (right; reflexivity).
  destruct (clicks_alternate (initTheme None true) 3 H) as [_ G].
  destruct (G ltac:(discriminate)) as [Hd _]. exact Hd.
Defined.

End Theme.

(* ================================================================== *)
(** * Active navigation link ([initActiveNavHighlight]) *)
(* ================================================================== *)

Module Nav.

#[local] Open Scope Z_scope.

(** A [section[id]] element: its id and its layout box, in pixels. *)
Record PageSection := mkSection {
  sectionId    : string;
  offsetTop    : Z;
  offsetHeight : Z
}.

(** A [.nav-link] element: [getAttribute('href')] ([None] is [null]) and
    whether its class list holds ['active']. *)
Record NavLink := mkLink {
  href   : option string;
  active : bool
}.

(** The template literal [`#${sectionId}`]. *)
Definition anchor (id : string) : string := String.append "#" id.

(** The inner loop: every link loses ['active'], and gets it back when its
    href is [target]. *)
Definition activate (target : string) (navLinks : list NavLink) : list NavLink :=
  map (fun link =>
         let link := {| href := href link; active := false |} in
         if decide (href link = Some target)
         then {| href := href link; active := true |}
         else link)
      navLinks.

(** [scrollPosition >= sectionTop && scrollPosition < sectionTop + sectionHeight] *)
Definition in_bounds (scrollPosition : Z) (section : PageSection) : bool :=
  (offsetTop section <=? scrollPosition) &&
  (scrollPosition <? offsetTop section + offsetHeight section).

(** The body of [sections.forEach] for one section. *)
Definition visit_section (scrollPosition : Z)
  (navLinks : list NavLink) (section : PageSection) : list NavLink :=
  if in_bounds scrollPosition section
  then activate (anchor (sectionId section)) navLinks
  else navLinks.

(** [updateActiveNav]; [scrollY] is [window.scrollY]. *)
Definition updateActiveNav (sections : list PageSection) (scrollY : Z)
  (navLinks : list NavLink) : list NavLink :=
  let scrollPosition := scrollY + 100 in
  let navLinks := fold_left (visit_section scrollPosition) sections navLinks in
  if scrollY <? 100 then activate "#home" navLinks else navLinks.

(** The scroll events of the window, each with the [scrollY] it finds. *)
Definition on_scroll := updateActiveNav.

(** [initActiveNavHighlight]: the listener is registered and the update runs
    once; afterwards every scroll event runs it again. *)
Definition initActiveNavHighlight (sections : list PageSection)
  (scrollY : Z) (navLinks : list NavLink) (scrolls : list Z) : list NavLink :=
  fold_left (fun links y => on_scroll sections y links) scrolls
            (updateActiveNav sections scrollY navLinks).

(** The section that wins: the last one, in document order, whose bounds
    contain the scroll position. *)
Definition winning_section (sections : list PageSection) (scrollPosition : Z)
  : option PageSection :=
  last (List.filter (in_bounds scrollPosition) sections).

(** The update as the specification words it. *)
Definition spec_updateActiveNav (sections : list PageSection) (scrollY : Z)
  (navLinks : list NavLink) : list NavLink :=
  if scrollY <? 100 then activate "#home" navLinks
  else match winning_section sections (scrollY + 100) with
       | Some section => activate (anchor (sectionId section)) navLinks
       | None => navLinks
       end.

(** ** Properties of [activate] *)

Lemma activate_activate a b links : activate a (activate b links) = activate a links.
Proof.
  unfold activate. rewrite map_map. apply map_ext. intros [h act]; simpl.
  destruct (decide (h = Some b)); reflexivity.
Qed.

Lemma activate_hrefs a links : map href (activate a links) = map href links.
Proof.
  unfold activate. rewrite map_map. apply map_ext. intros [h act]; simpl.
  destruct (decide (h = Some a)); reflexivity.
Qed.

Lemma activate_active a links link :
  In link (activate a links) ->
  (active link = true <-> href link = Some a).
Proof.
  unfold activate. rewrite in_map_iff. intros ([h act] & <- & _); simpl.
  destruct (decide (h = Some a)) as [-> | Hne]; simpl; split;
    congruence.
Qed.

(** ** The loop over the sections *)

Lemma in_bounds_iff pos section :
  in_bounds pos section = true <->
  offsetTop section <= pos < offsetTop section + offsetHeight section.
Proof.
  unfold in_bounds. rewrite andb_true_iff, Z.leb_le, Z.ltb_lt. reflexivity.
Qed.

Lemma fold_visit_snoc pos sections section links :
  fold_left (visit_section pos) (sections ++ [section]) links
  = visit_section pos (fold_left (visit_section pos) sections links) section.
Proof. rewrite fold_left_app. reflexivity. Qed.

(** After the loop the links are those activated for the winning section,
    or the links as they were when no section matches. *)
Lemma fold_visit_winning pos links sections :
  fold_left (visit_section pos) sections links
  = match winning_section sections pos with
    | Some section => activate (anchor (sectionId section)) links
    | None => links
    end.
Proof.
  induction sections as [| section sections IH] using rev_ind; [reflexivity |].
  rewrite fold_visit_snoc, IH. unfold winning_section, visit_section.
  rewrite List.filter_app. simpl.
  destruct (in_bounds pos section).
  - rewrite last_snoc.
    destruct (last _); [apply activate_activate | reflexivity].
  - rewrite app_nil_r. reflexivity.
Qed.

(** A matching section followed only by sections that do not match wins. *)
Lemma winning_section_last before section after pos :
  in_bounds pos section = true ->
  (forall s, In s after -> in_bounds pos s = false) ->
  winning_section (before ++ section :: after) pos = Some section.
Proof.
  intros Hin Hafter. unfold winning_section.
  rewrite List.filter_app. simpl. rewrite Hin.
  assert (E : List.filter (in_bounds pos) after = []).
  { induction after as [| s after IH]; [reflexivity |].
    simpl. rewrite (Hafter s) by (left; reflexivity).
    apply IH. intros s' Hs'. apply Hafter. right. exact Hs'. }
  rewrite E. apply last_snoc.
Qed.

Lemma updateActiveNav_closed sections scrollY navLinks :
  updateActiveNav sections scrollY navLinks
  = spec_updateActiveNav sections scrollY navLinks.
Proof.
  unfold updateActiveNav, spec_updateActiveNav.
  rewrite fold_visit_winning.
  destruct (scrollY <? 100); [| reflexivity].
  destruct (winning_section _ _); [apply activate_activate | reflexivity].
Qed.

(** C2: on initialisation and on every scroll event the links are updated
    from scrollPosition = scrollY + 100: the link of the last section whose
    bounds [top, top + height) contain scrollPosition is the active one and
    all other links are inactive; and when scrollY < 100 the link to
    [#home] is the active one whatever the section bounds are. *)
Theorem updateActiveNav_spec (sections : list PageSection) (scrollY : Z)
  (navLinks : list NavLink) :
  updateActiveNav sections scrollY navLinks
    = spec_updateActiveNav sections scrollY navLinks
  /\ initActiveNavHighlight sections scrollY navLinks []
      = spec_updateActiveNav sections scrollY navLinks
  /\ (forall scrolls y,
        initActiveNavHighlight sections scrollY navLinks (scrolls ++ [y])
        = spec_updateActiveNav sections y
            (initActiveNavHighlight sections scrollY navLinks scrolls))
  /\ map href (updateActiveNav sections scrollY navLinks) = map href navLinks
  /\ (forall link, scrollY < 100 ->
        In link (updateActiveNav sections scrollY navLinks) ->
        (active link = true <-> href link = Some "#home"))
  /\ (forall before section after link, 100 <= scrollY ->
        sections = before ++ section :: after ->
        offsetTop section <= scrollY + 100
          < offsetTop section + offsetHeight section ->
        (forall s, In s after ->
           ~ (offsetTop s <= scrollY + 100 < offsetTop s + offsetHeight s)) ->
        In link (updateActiveNav sections scrollY navLinks) ->
        (active link = true <-> href link = Some (anchor (sectionId section)))).
Proof.
  split; [apply updateActiveNav_closed |].
  split; [apply updateActiveNav_closed |].
  split.
  { intros scrolls y. unfold initActiveNavHighlight.
    rewrite fold_left_app. simpl. apply updateActiveNav_closed. }
  rewrite updateActiveNav_closed. unfold spec_updateActiveNav.
  split; [| split].
  - destruct (scrollY <? 100); [apply activate_hrefs |].
    destruct (winning_section _ _); [apply activate_hrefs | reflexivity].
  - intros link Hy. apply Z.ltb_lt in Hy. rewrite Hy. apply activate_active.
  - intros before section after link Hy -> Hb Hafter.
    apply Z.ltb_ge in Hy. rewrite Hy.
    rewrite (winning_section_last before section after).
    + apply activate_active.
    + apply in_bounds_iff, Hb.
    + intros s Hs. specialize (Hafter s Hs).
      destruct (in_bounds (scrollY + 100) s) eqn:E; [| reflexivity].
      apply in_bounds_iff in E. contradiction.
Qed.

(** ** A worked page *)

Definition page_sections : list PageSection :=
  [ mkSection "home" 0 600; mkSection "about" 600 500;
    mkSection "projects" 1000 800 ].

Definition page_links : list NavLink :=
  [ mkLink (Some "#home") true; mkLink (Some "#about") false;
    mkLink (Some "#projects") false ].

(** At scrollY = 950 the position 1050 lies in both "about" and "projects";
    the later section wins. *)
Example overlap_last_wins :
  map active (updateActiveNav page_sections 950 page_links) = [false; false; true].
Proof. reflexivity. Qed.

Example top_of_page_is_home :
  map active (updateActiveNav page_sections 40 (activate "#about" page_links))
  = [true; false; false].
Proof. reflexivity. Qed.

(** Below every section the links stay as they are. *)
Example past_the_end_unchanged :
  updateActiveNav page_sections 5000 page_links = page_links.
Proof. reflexivity. Qed.

(** ** More about the update *)

(** Whether some section holds the scroll position. *)
Definition some_section_holds (sections : list PageSection) (pos : Z) : Prop :=
  exists section,
    In section sections /\
    offsetTop section <= pos < offsetTop section + offsetHeight section.

Lemma winning_section_some sections pos :
  some_section_holds sections pos ->
  exists section, winning_section sections pos = Some section.
Proof.
  intros (section & Hin & Hb). unfold winning_section.
  assert (Hf : In section (List.filter (in_bounds pos) sections)).
  { apply filter_In. split; [exact Hin | apply in_bounds_iff, Hb]. }
  destruct (List.filter (in_bounds pos) sections) as [| x l] using rev_ind;
    [contradiction |].
  exists x. apply last_snoc.
Qed.

Lemma winning_section_none sections pos :
  (forall section, In section sections ->
     ~ (offsetTop section <= pos < offsetTop section + offsetHeight section)) ->
  winning_section sections pos = None.
Proof.
  intros H. unfold winning_section.
  assert (E : List.filter (in_bounds pos) sections = []).
  { induction sections as [| s sections IH]; [reflexivity |].
    simpl. destruct (in_bounds pos s) eqn:Hs.
    - apply in_bounds_iff in Hs. destruct (H s); [left; reflexivity | exact Hs].
    - apply IH. intros s' Hs'. apply H. right. exact Hs'. }
  rewrite E. reflexivity.
Qed.

(** When the update writes at all, it writes the links of one anchor. *)
Lemma updateActiveNav_activates sections scrollY :
  scrollY < 100 \/ some_section_holds sections (scrollY + 100) ->
  exists a, forall links,
    updateActiveNav sections scrollY links = activate a links.
Proof.
  intros H. destruct (scrollY <? 100) eqn:Hy.
  - exists "#home". intros links. rewrite updateActiveNav_closed.
    unfold spec_updateActiveNav. rewrite Hy. reflexivity.
  - destruct H as [H | H]; [apply Z.ltb_ge in Hy; lia |].
    destruct (winning_section_some _ _ H) as [section Hw].
    exists (anchor (sectionId section)). intros links.
    rewrite updateActiveNav_closed. unfold spec_updateActiveNav.
    rewrite Hy, Hw. reflexivity.
Qed.

Lemma activate_same_hrefs a links links' :
  map href links = map href links' -> activate a links = activate a links'.
Proof.
  revert links'. induction links as [| [h act] links IH];
    intros [| [h' act'] links'] E; try discriminate; [reflexivity |].
  simpl in E. injection E as -> E. simpl. rewrite (IH _ E). reflexivity.
Qed.

Lemma activate_absent a links :
  ~ In (Some a) (map href links) ->
  List.filter active (activate a links) = [].
Proof.
  induction links as [| [h act] links IH]; intros H; [reflexivity |].
  simpl in *. destruct (decide (h = Some a)) as [-> | Hne]; simpl.
  - destruct H. left. reflexivity.
  - apply IH. intros Hin. apply H. right. exact Hin.
Qed.

Lemma activate_at_most_one a links :
  NoDup (map href links) ->
  (length (List.filter active (activate a links)) <= 1)%nat.
Proof.
  induction links as [| [h act] links IH]; intros H; [simpl; lia |].
  simpl in H. apply NoDup_cons in H as [Hh Hnd].
  simpl. destruct (decide (h = Some a)) as [-> | Hne]; simpl.
  - rewrite activate_absent; [simpl; lia |].
    intros Hin. apply Hh. apply list_elem_of_In. exact Hin.
  - apply IH, Hnd.
Qed.

(** X6: the update is idempotent: running it again at the same scroll offset
    changes nothing. *)
Theorem updateActiveNav_idempotent (sections : list PageSection) (scrollY : Z)
  (navLinks : list NavLink) :
  updateActiveNav sections scrollY (updateActiveNav sections scrollY navLinks)
  = updateActiveNav sections scrollY navLinks.
Proof.
  rewrite !updateActiveNav_closed. unfold spec_updateActiveNav.
  destruct (scrollY <? 100); [apply activate_activate |].
  destruct (winning_section _ _); [apply activate_activate | reflexivity].
Qed.

(** X7: when the page is near the top or some section holds the scroll
    position, the links after the update do not depend on which links were
    active before it. *)
Theorem updateActiveNav_forgets (sections : list PageSection) (scrollY : Z)
  (navLinks navLinks' : list NavLink) :
  map href navLinks = map href navLinks' ->
  scrollY < 100 \/ some_section_holds sections (scrollY + 100) ->
  updateActiveNav sections scrollY navLinks
  = updateActiveNav sections scrollY navLinks'.
Proof.
  intros Hh H.
  destruct (updateActiveNav_activates sections scrollY H) as [a Ha].
  rewrite !Ha. apply activate_same_hrefs, Hh.
Qed.

(** X8: at 100 pixels or more from the top, when no section holds the scroll
    position (a gap between sections, or past the last one), the update
    leaves the links as they are: the link that was active stays active. *)
Theorem updateActiveNav_gap (sections : list PageSection) (scrollY : Z)
  (navLinks : list NavLink) :
  100 <= scrollY ->
  (forall section, In section sections ->
     ~ (offsetTop section <= scrollY + 100
          < offsetTop section + offsetHeight section)) ->
  updateActiveNav sections scrollY navLinks = navLinks.
Proof.
  intros Hy Hnone. rewrite updateActiveNav_closed. unfold spec_updateActiveNav.
  apply Z.ltb_ge in Hy. rewrite Hy, (winning_section_none _ _ Hnone). reflexivity.
Qed.

(** X9: when the links have pairwise distinct hrefs, and the page is near
    the top or some section holds the scroll position, at most one link is
    active after the update. *)
Theorem updateActiveNav_at_most_one (sections : list PageSection) (scrollY : Z)
  (navLinks : list NavLink) :
  NoDup (map href navLinks) ->
  scrollY < 100 \/ some_section_holds sections (scrollY + 100) ->
  (length (List.filter active (updateActiveNav sections scrollY navLinks)) <= 1)%nat.
Proof.
  intros Hnd H.
  destruct (updateActiveNav_activates sections scrollY H) as [a Ha].
  rewrite Ha. apply activate_at_most_one, Hnd.
Qed.

(** Every link of the worked page marked active, as a stale page could be. *)
Definition all_active : list NavLink :=
  map (fun link => mkLink (href link) true) page_links.

Lemma page_links_distinct : NoDup (map href page_links).
Proof. apply (bool_decide_unpack _). vm_compute. exact I. Defined.

Lemma page_about_holds : some_section_holds page_sections (650 + 100).
Proof.
  exists (mkSection "about" 600 500). split; [right; left; reflexivity |].
  simpl. lia.
Defined.

Lemma updateActiveNav_forgets_witness :
  updateActiveNav page_sections 650 all_active
  = updateActiveNav page_sections 650 page_links.
Proof.
  apply (updateActiveNav_forgets page_sections 650 all_active page_links).
  - reflexivity.
  - right. exact page_about_holds.
Defined.

Lemma updateActiveNav_gap_witness :
  updateActiveNav page_sections 5000 all_active = all_active.
Proof.
  apply (updateActiveNav_gap page_sections 5000 all_active).
  - lia.
  - intros section [<- | [<- | [<- | []]]]; simpl; lia.
Defined.

Lemma updateActiveNav_at_most_one_witness :
  (length (List.filter active (updateActiveNav page_sections 650 all_active)) <= 1)%nat.
Proof.
  apply (updateActiveNav_at_most_one page_sections 650 all_active).
  - exact page_links_distinct.
  - right. exact page_about_holds.
Defined.

End Nav.

(* ================================================================== *)
(** * Regular expressions, as far as [isValidEmail] needs them *)
(* ================================================================== *)

Module Regex.

Import JS.

(** Patterns over code units.  [RegExp.prototype.test] on a pattern anchored
    by [^] and [$] (no flags) answers whether the whole string belongs to
    the language of the pattern. *)
Inductive regex :=
| Void
| Eps
| Class (p : N -> bool)
| Seq (r1 r2 : regex)
| Alt (r1 r2 : regex)
| Star (r : regex).

(** [c] as a pattern, and [r+]. *)
Definition Chr (c : N) : regex := Class (N.eqb c).
Definition Plus (r : regex) : regex := Seq r (Star r).

Fixpoint nullable (r : regex) : bool :=
  match r with
  | Void => false
  | Eps => true
  | Class _ => false
  | Seq r1 r2 => nullable r1 && nullable r2
  | Alt r1 r2 => nullable r1 || nullable r2
  | Star _ => true
  end.

(** The derivative of a pattern by a code unit. *)
Fixpoint deriv (c : N) (r : regex) : regex :=
  match r with
  | Void => Void
  | Eps => Void
  | Class p => if p c then Eps else Void
  | Seq r1 r2 =>
      if nullable r1
      then Alt (Seq (deriv c r1) r2) (deriv c r2)
      else Seq (deriv c r1) r2
  | Alt r1 r2 => Alt (deriv c r1) (deriv c r2)
  | Star r1 => Seq (deriv c r1) (Star r1)
  end.

(** Whole-string matching. *)
Fixpoint test (r : regex) (s : jsstring) : bool :=
  match s with
  | [] => nullable r
  | c :: s' => test (deriv c r) s'
  end.

(** The language of a pattern. *)
Inductive lang : regex -> jsstring -> Prop :=
| lang_Eps : lang Eps []
| lang_Class p c : p c = true -> lang (Class p) [c]
| lang_Seq r1 r2 s1 s2 :
    lang r1 s1 -> lang r2 s2 -> lang (Seq r1 r2) (s1 ++ s2)
| lang_AltL r1 r2 s : lang r1 s -> lang (Alt r1 r2) s
| lang_AltR r1 r2 s : lang r2 s -> lang (Alt r1 r2) s
| lang_Star_nil r : lang (Star r) []
| lang_Star_app r s1 s2 :
    lang r s1 -> lang (Star r) s2 -> lang (Star r) (s1 ++ s2).

#[local] Hint Constructors lang : core.

Lemma lang_nil_nullable r s : lang r s -> s = [] -> nullable r = true.
Proof.
  induction 1 as [| | r1 r2 s1 s2 _ IH1 _ IH2 | r1 r2 s _ IH | r1 r2 s _ IH | |];
    intros E; simpl; try reflexivity; try discriminate.
  - apply app_eq_nil in E as [E1 E2]. rewrite IH1, IH2; auto.
  - rewrite IH; auto.
  - rewrite IH; auto using orb_true_r.
Qed.

Lemma nullable_lang_nil r : nullable r = true -> lang r [].
Proof.
  induction r as [| | p | r1 IH1 r2 IH2 | r1 IH1 r2 IH2 | r IH]; simpl; intros H;
    try discriminate; auto.
  - apply andb_true_iff in H as [H1 H2].
    change (@nil N) with (@nil N ++ []). auto.
  - apply orb_true_iff in H as [H | H]; auto.
Qed.

Lemma lang_deriv r s' : lang r s' -> forall c s, s' = c :: s -> lang (deriv c r) s.
Proof.
  induction 1 as [| p c0 Hp | r1 r2 s1 s2 H1 IH1 H2 IH2 | r1 r2 s0 _ IH
                  | r1 r2 s0 _ IH | | r s1 s2 H1 IH1 H2 IH2];
    intros c s E; simpl; try discriminate; auto.
  - injection E as -> <-. rewrite Hp. constructor.
  - destruct s1 as [| c1 s1]; simpl in E.
    + rewrite (lang_nil_nullable _ _ H1 eq_refl). apply lang_AltR. auto.
    + injection E as -> <-.
      destruct (nullable r1); [apply lang_AltL |]; constructor; auto.
  - destruct s1 as [| c1 s1]; simpl in E.
    + apply (IH2 c s E).
    + injection E as -> <-. constructor; auto.
Qed.

Lemma deriv_lang r : forall c s, lang (deriv c r) s -> lang r (c :: s).
Proof.
  induction r as [| | p | r1 IH1 r2 IH2 | r1 IH1 r2 IH2 | r IH]; simpl; intros c s H.
  - inversion H.
  - inversion H.
  - destruct (p c) eqn:Hp; inversion H; subst. constructor. exact Hp.
  - assert (HS : forall t, lang (Seq (deriv c r1) r2) t -> lang (Seq r1 r2) (c :: t)).
    { intros t Ht. inversion Ht; subst.
      change (c :: s1 ++ s2) with ((c :: s1) ++ s2). constructor; auto. }
    destruct (nullable r1) eqn:Hn; [| auto].
    inversion H; subst; [auto |].
    change (c :: s) with ([] ++ c :: s).
    constructor; [apply nullable_lang_nil, Hn | auto].
  - inversion H; subst; auto.
  - inversion H; subst.
    change (c :: s1 ++ s2) with ((c :: s1) ++ s2). constructor; auto.
Qed.

(** The matcher decides the language. *)
Lemma test_lang s : forall r, test r s = true <-> lang r s.
Proof.
  induction s as [| c s IH]; intros r; simpl.
  - split; [apply nullable_lang_nil | intros H; apply (lang_nil_nullable _ _ H eq_refl)].
  - rewrite IH. split; [apply deriv_lang | intros H; apply (lang_deriv _ _ H _ _ eq_refl)].
Qed.

(** ** The languages of the pieces of the e-mail pattern *)

Definition all_in (p : N -> bool) (s : jsstring) : Prop :=
  Forall (fun c => p c = true) s.

Lemma lang_Chr c s : lang (Chr c) s <-> s = [c].
Proof.
  split.
  - intros H. inversion H as [| p c0 Hp | | | | |]; subst.
    apply N.eqb_eq in Hp. subst. reflexivity.
  - intros ->. constructor. apply N.eqb_refl.
Qed.

Lemma lang_Star_Class p s : lang (Star (Class p)) s <-> all_in p s.
Proof.
  split.
  - intros H. remember (Star (Class p)) as r eqn:Er.
    induction H as [| | | | | | r s1 s2 H1 _ H2 IH2]; try discriminate.
    + constructor.
    + injection Er as ->. inversion H1; subst. simpl.
      constructor; [assumption | apply IH2; reflexivity].
  - induction 1 as [| c s Hc _ IH]; [constructor |].
    change (c :: s) with ([c] ++ s). constructor; [constructor; exact Hc | exact IH].
Qed.

Lemma lang_Plus_Class p s : lang (Plus (Class p)) s <-> s <> [] /\ all_in p s.
Proof.
  unfold Plus. split.
  - intros H. inversion H as [| | r1 r2 s1 s2 H1 H2 | | | |]; subst.
    inversion H1; subst. simpl. split; [discriminate |].
    constructor; [assumption | apply lang_Star_Class; assumption].
  - intros [Hne Hall]. destruct s as [| c s]; [contradiction |].
    inversion Hall; subst.
    change (c :: s) with ([c] ++ s).
    constructor; [constructor; assumption | apply lang_Star_Class; assumption].
Qed.

Lemma lang_Seq_inv r1 r2 s :
  lang (Seq r1 r2) s <-> exists s1 s2, s = s1 ++ s2 /\ lang r1 s1 /\ lang r2 s2.
Proof.
  split.
  - intros H. inversion H; subst. eauto.
  - intros (s1 & s2 & -> & H1 & H2). constructor; assumption.
Qed.

End Regex.

(* ================================================================== *)
(** * Contact form ([initFormValidation], [isValidEmail], [showFormMessage]) *)
(* ================================================================== *)

Module Form.

Import JS Regex.

(** ** The e-mail pattern *)

(** [[^\s@]] *)
Definition not_space_at (c : N) : bool :=
  negb (is_whitespace c || (c =? 64)%N).

(** [/^[^\s@]+@[^\s@]+\.[^\s@]+$/]; 64 is [@] and 46 is [.] *)
Definition emailRegex : regex :=
  Seq (Plus (Class not_space_at))
 (Seq (Chr 64)
 (Seq (Plus (Class not_space_at))
 (Seq (Chr 46)
      (Plus (Class not_space_at))))).

Definition isValidEmail (email : jsstring) : bool := test emailRegex email.

(** ** The page *)

(** The [value] of the four inputs. *)
Record Fields := mkFields {
  name    : jsstring;
  email   : jsstring;
  subject : jsstring;
  message : jsstring
}.

Inductive MessageType := success | error.

(** The [.form-message] element appended to the form. *)
Record FormMessage := mkMessage {
  innerHTML : string;
  className : MessageType
}.

Record Page := mkPage {
  fields      : Fields;
  formMessage : option FormMessage
}.

(** Modelled from the spec: the markup of the contact form is not part of the
    sources; the specification has a reset clear all four fields, so no field
    declares an initial value and [contactForm.reset()] empties them. *)
Definition defaultFields : Fields :=
  {| name := []; email := []; subject := []; message := [] |}.

Definition reset (p : Page) : Page :=
  {| fields := defaultFields; formMessage := formMessage p |}.

(** [showFormMessage]: a message already shown is removed and the new one is
    appended.  (The removal of the message five seconds later is a timer and
    is left out.) *)
Definition showFormMessage (text : string) (type : MessageType) (p : Page) : Page :=
  {| fields := fields p;
     formMessage := Some {| innerHTML := text; className := type |} |}.

(** ** Validation *)

Definition msg_name_required    : string := "Name is required".
Definition msg_email_required   : string := "Email is required".
Definition msg_email_invalid    : string := "Please enter a valid email address".
Definition msg_subject_required : string := "Subject is required".
Definition msg_message_required : string := "Message is required".
Definition msg_message_short    : string :=
  "Message must be at least 10 characters long".
Definition msg_success : string :=
  "Thank you for your message! I'll get back to you soon.".

(** The two locals of the submit listener. *)
Record Validation := mkValidation {
  isValid : bool;
  errors  : list string
}.

(** [errors.push(msg); isValid = false;] *)
Definition push (msg : string) (v : Validation) : Validation :=
  {| isValid := isValid v; errors := errors v ++ [msg] |}.
Definition invalidate (v : Validation) : Validation :=
  {| isValid := false; errors := errors v |}.
Definition reject (msg : string) (v : Validation) : Validation :=
  invalidate (push msg v).

Definition check_name (name : jsstring) (v : Validation) : Validation :=
  if is_empty name then reject msg_name_required v else v.

Definition check_email (email : jsstring) (v : Validation) : Validation :=
  if is_empty email then reject msg_email_required v
  else if negb (isValidEmail email) then reject msg_email_invalid v
  else v.

Definition check_subject (subject : jsstring) (v : Validation) : Validation :=
  if is_empty subject then reject msg_subject_required v else v.

Definition check_message (message : jsstring) (v : Validation) : Validation :=
  if is_empty message then reject msg_message_required v
  else if (length message <? 10)%nat then reject msg_message_short v
  else v.

(** The four [if] statements, in the order of the source. *)
Definition validate (name email subject message : jsstring) : Validation :=
  let v := {| isValid := true; errors := [] |} in
  let v := check_name name v in
  let v := check_email email v in
  let v := check_subject subject v in
  check_message message v.

(** The submit listener. *)
Definition on_submit (p : Page) : Page :=
  let name := trim (name (fields p)) in
  let email := trim (email (fields p)) in
  let subject := trim (subject (fields p)) in
  let message := trim (message (fields p)) in
  let v := validate name email subject message in
  if isValid v then reset (showFormMessage msg_success success p)
  else showFormMessage (join "<br>" (errors v)) error p.

(** [initFormValidation]: the listener is registered when the page has a
    contact form, and not otherwise. *)
Definition initFormValidation (contactForm : bool) : option (Page -> Page) :=
  if contactForm then Some on_submit else None.

(** ** The specification's vocabulary *)

(** One or more non-space-non-[@] characters, [@], one or more, [.], one or
    more. *)
Definition email_shape (e : jsstring) : Prop :=
  exists a b c,
    e = a ++ [64%N] ++ b ++ [46%N] ++ c /\
    a <> [] /\ b <> [] /\ c <> [] /\
    all_in not_space_at a /\ all_in not_space_at b /\ all_in not_space_at c.

(** Every message of the validator, in the fixed order name, email, subject,
    message. *)
Definition all_messages : list string :=
  [ msg_name_required; msg_email_required; msg_email_invalid;
    msg_subject_required; msg_message_required; msg_message_short ].

(** ** The pattern decides the shape *)

Lemma isValidEmail_shape e : isValidEmail e = true <-> email_shape e.
Proof.
  unfold isValidEmail, emailRegex, email_shape. rewrite test_lang.
  split.
  - intros H.
    apply lang_Seq_inv in H as (a & t1 & -> & Ha & H).
    apply lang_Seq_inv in H as (at_ & t2 & -> & Hat & H).
    apply lang_Seq_inv in H as (b & t3 & -> & Hb & H).
    apply lang_Seq_inv in H as (dot & c & -> & Hdot & Hc).
    apply lang_Chr in Hat, Hdot. subst.
    apply lang_Plus_Class in Ha as [? ?], Hb as [? ?], Hc as [? ?].
    exists a, b, c. repeat split; assumption.
  - intros (a & b & c & -> & Ha & Hb & Hc & Pa & Pb & Pc).
    repeat (apply lang_Seq_inv; eexists; eexists; split; [reflexivity |]; split);
      try (apply lang_Chr; reflexivity);
      apply lang_Plus_Class; split; assumption.
Qed.

Lemma isValidEmail_false_shape e : isValidEmail e = false <-> ~ email_shape e.
Proof.
  rewrite <- isValidEmail_shape. destruct (isValidEmail e); split;
    congruence.
Qed.

Example isValidEmail_a_at_b : isValidEmail (js "a@b") = false.
Proof. reflexivity. Qed.

Example isValidEmail_dotted : isValidEmail (js "a@b.c") = true.
Proof. reflexivity. Qed.

Example isValidEmail_inner_space : isValidEmail (js "a b@c.d") = false.
Proof. reflexivity. Qed.

Example isValidEmail_two_dots : isValidEmail (js "me@mail.example.org") = true.
Proof. reflexivity. Qed.

(** ** Each rule on its own *)

Definition fresh : Validation := {| isValid := true; errors := [] |}.

(** The flag and the array stay in step. *)
Definition in_step (v : Validation) : Prop :=
  isValid v = true <-> errors v = [].

Lemma fresh_in_step : in_step fresh.
Proof. split; reflexivity. Qed.

Lemma reject_in_step msg v : in_step (reject msg v).
Proof.
  split; simpl; [discriminate |].
  intros H. apply app_eq_nil in H as [_ H]. discriminate.
Qed.

Lemma check_name_in_step n v : in_step v -> in_step (check_name n v).
Proof. unfold check_name. destruct (is_empty n); auto using reject_in_step. Qed.

Lemma check_email_in_step e v : in_step v -> in_step (check_email e v).
Proof.
  unfold check_email.
  destruct (is_empty e), (negb (isValidEmail e)); auto using reject_in_step.
Qed.

Lemma check_subject_in_step s v : in_step v -> in_step (check_subject s v).
Proof. unfold check_subject. destruct (is_empty s); auto using reject_in_step. Qed.

Lemma check_message_in_step m v : in_step v -> in_step (check_message m v).
Proof.
  unfold check_message.
  destruct (is_empty m), (length m <? 10)%nat; auto using reject_in_step.
Qed.

Lemma validate_in_step n e s m : in_step (validate n e s m).
Proof.
  unfold validate.
  apply check_message_in_step, check_subject_in_step,
        check_email_in_step, check_name_in_step, fresh_in_step.
Qed.

(** What a check adds does not depend on what was collected before it. *)
Lemma check_name_errors n v :
  errors (check_name n v) = errors v ++ errors (check_name n fresh).
Proof.
  unfold check_name. destruct (is_empty n); simpl;
    [reflexivity | symmetry; apply app_nil_r].
Qed.

Lemma check_email_errors e v :
  errors (check_email e v) = errors v ++ errors (check_email e fresh).
Proof.
  unfold check_email. destruct (is_empty e), (negb (isValidEmail e)); simpl;
    try reflexivity; symmetry; apply app_nil_r.
Qed.

Lemma check_subject_errors s v :
  errors (check_subject s v) = errors v ++ errors (check_subject s fresh).
Proof.
  unfold check_subject. destruct (is_empty s); simpl;
    [reflexivity | symmetry; apply app_nil_r].
Qed.

Lemma check_message_errors m v :
  errors (check_message m v) = errors v ++ errors (check_message m fresh).
Proof.
  unfold check_message. destruct (is_empty m), (length m <? 10)%nat; simpl;
    try reflexivity; symmetry; apply app_nil_r.
Qed.

Lemma validate_errors n e s m :
  errors (validate n e s m)
  = errors (check_name n fresh) ++ errors (check_email e fresh)
    ++ errors (check_subject s fresh) ++ errors (check_message m fresh).
Proof.
  unfold validate.
  rewrite check_message_errors, check_subject_errors, check_email_errors.
  rewrite <- !app_assoc. reflexivity.
Qed.

Lemma is_empty_nil (s : jsstring) : is_empty s = true <-> s = [].
Proof. destruct s; split; intros H; try reflexivity; discriminate. Qed.

Lemma check_name_cases n :
  (n = [] /\ errors (check_name n fresh) = [msg_name_required]) \/
  (n <> [] /\ errors (check_name n fresh) = []).
Proof. destruct n; [left | right]; split; try reflexivity; discriminate. Qed.

Lemma check_subject_cases s :
  (s = [] /\ errors (check_subject s fresh) = [msg_subject_required]) \/
  (s <> [] /\ errors (check_subject s fresh) = []).
Proof. destruct s; [left | right]; split; try reflexivity; discriminate. Qed.

Lemma check_email_cases e :
  (e = [] /\ errors (check_email e fresh) = [msg_email_required]) \/
  (e <> [] /\ ~ email_shape e /\ errors (check_email e fresh) = [msg_email_invalid]) \/
  (e <> [] /\ email_shape e /\ errors (check_email e fresh) = []).
Proof.
  unfold check_email. destruct (is_empty e) eqn:He.
  - left. apply is_empty_nil in He. split; [exact He | reflexivity].
  - assert (e <> []) by (intros ->; discriminate).
    right. destruct (isValidEmail e) eqn:Hv; simpl.
    + right. apply isValidEmail_shape in Hv. auto.
    + left. apply isValidEmail_false_shape in Hv. auto.
Qed.

Lemma check_message_cases m :
  (m = [] /\ errors (check_message m fresh) = [msg_message_required]) \/
  (m <> [] /\ (length m < 10)%nat /\
   errors (check_message m fresh) = [msg_message_short]) \/
  (m <> [] /\ (10 <= length m)%nat /\ errors (check_message m fresh) = []).
Proof.
  unfold check_message. destruct (is_empty m) eqn:He.
  - left. apply is_empty_nil in He. split; [exact He | reflexivity].
  - assert (m <> []) by (intros ->; discriminate).
    right. destruct (length m <? 10)%nat eqn:Hl; simpl.
    + left. apply Nat.ltb_lt in Hl. auto.
    + right. apply Nat.ltb_ge in Hl. auto.
Qed.

(** ** The two outcomes of a submission *)

Definition trimmed (p : Page) : Validation :=
  validate (trim (name (fields p))) (trim (email (fields p)))
           (trim (subject (fields p))) (trim (message (fields p))).

Lemma on_submit_accepted p :
  errors (trimmed p) = [] ->
  on_submit p = {| fields := defaultFields;
                   formMessage := Some {| innerHTML := msg_success;
                                          className := success |} |}.
Proof.
  intros H. apply (validate_in_step _ _ _ _) in H.
  unfold on_submit. fold (trimmed p). unfold trimmed in *. rewrite H. reflexivity.
Qed.

Lemma on_submit_rejected p :
  errors (trimmed p) <> [] ->
  on_submit p = {| fields := fields p;
                   formMessage := Some {| innerHTML := join "<br>" (errors (trimmed p));
                                          className := error |} |}.
Proof.
  intros H. unfold on_submit, trimmed in *.
  destruct (isValid _) eqn:Hv; [| reflexivity].
  apply (validate_in_step _ _ _ _) in Hv. contradiction.
Qed.

Ltac sublist_of_all :=
  unfold all_messages; cbn [app];
  repeat first [ apply sublist_nil_l | apply sublist_skip | apply sublist_cons ].

Ltac message_membership :=
  simpl; unfold msg_name_required, msg_email_required, msg_email_invalid,
    msg_subject_required, msg_message_required, msg_message_short;
  intuition (try discriminate; try congruence; try lia).

(** C3: the four fields are trimmed and every rule is evaluated whatever the
    others gave; the collected messages are exactly those of the violated
    rules, each at most once, in the order name, email, subject, message,
    and when there is one the text shown is their join by a line break.  The
    rules: name non-empty; email non-empty and of the shape "one or more
    non-space-non-at, at, one or more, dot, one or more"; subject non-empty;
    message non-empty and at least 10 characters long.  An all-empty
    submission gives four messages in that order, and the email "a@b" (the
    other fields passing) gives the email message alone. *)
Theorem validation_rules (p : Page) :
  let n := trim (name (fields p)) in
  let e := trim (email (fields p)) in
  let s := trim (subject (fields p)) in
  let m := trim (message (fields p)) in
  let errs := errors (validate n e s m) in
  errs = errors (check_name n fresh) ++ errors (check_email e fresh)
         ++ errors (check_subject s fresh) ++ errors (check_message m fresh)
  /\ sublist errs all_messages
  /\ (In "Name is required" errs <-> n = [])
  /\ (In "Email is required" errs <-> e = [])
  /\ (In "Please enter a valid email address" errs <->
        e <> [] /\ ~ email_shape e)
  /\ (In "Subject is required" errs <-> s = [])
  /\ (In "Message is required" errs <-> m = [])
  /\ (In "Message must be at least 10 characters long" errs <->
        m <> [] /\ (length m < 10)%nat)
  /\ (errs <> [] ->
        formMessage (on_submit p)
        = Some {| innerHTML := join "<br>" errs; className := error |})
  /\ (n = [] -> e = [] -> s = [] -> m = [] ->
        errs = [ "Name is required"; "Email is required";
                 "Subject is required"; "Message is required" ])
  /\ (e = js "a@b" -> n <> [] -> s <> [] -> (10 <= length m)%nat ->
        errs = [ "Please enter a valid email address" ]).
Proof.
  intros n e s m errs.
  assert (Herrs : errs = errors (trimmed p)) by reflexivity.
  split; [apply validate_errors |].
  split; [| split; [| split; [| split; [| split; [| split; [| split;
    [| split; [| split]]]]]]]].
  9: { intros -> -> -> ->. reflexivity. }
  8: { intros Hne. rewrite Herrs in *. rewrite (on_submit_rejected p Hne).
       reflexivity. }
  8: { intros He Hn Hs Hm. unfold errs. rewrite validate_errors, He.
       destruct (check_name_cases n) as [[? _] | [_ ->]]; [exfalso; auto |].
       destruct (check_subject_cases s) as [[? _] | [_ ->]]; [exfalso; auto |].
       destruct (check_message_cases m) as [[E _] | [(_ & ? & _) | (_ & _ & ->)]];
         [rewrite E in Hm; simpl in Hm; lia | lia |].
       reflexivity. }
  all: unfold errs; rewrite validate_errors;
    destruct (check_name_cases n) as [[Hn ->] | [Hn ->]];
    destruct (check_email_cases e) as [[He ->] | [(He & Hsh & ->) | (He & Hsh & ->)]];
    destruct (check_subject_cases s) as [[Hs ->] | [Hs ->]];
    destruct (check_message_cases m) as [[Hm ->] | [(Hm & Hl & ->) | (Hm & Hl & ->)]];
    first [ solve [sublist_of_all] | message_membership ].
Qed.

(** No message is collected exactly when the six rules hold. *)
Lemma validate_no_errors n e s m :
  errors (validate n e s m) = [] <->
  n <> [] /\ e <> [] /\ email_shape e /\ s <> [] /\ m <> [] /\
  (10 <= length m)%nat.
Proof.
  rewrite validate_errors.
  destruct (check_name_cases n) as [[Hn ->] | [Hn ->]];
  destruct (check_email_cases e) as [[He ->] | [(He & Hsh & ->) | (He & Hsh & ->)]];
  destruct (check_subject_cases s) as [[Hs ->] | [Hs ->]];
  destruct (check_message_cases m) as [[Hm ->] | [(Hm & Hl & ->) | (Hm & Hl & ->)]];
  simpl; intuition (try discriminate; try congruence; try lia).
Qed.

(** C4: a submission is accepted exactly when no rule is violated, that is
    when, after trimming, the name is non-empty, the email is non-empty and
    of the shape "one or more non-space-non-at, at, one or more, dot, one or
    more", the subject is non-empty and the message is non-empty and at
    least 10 characters long; then the fixed success text is shown and the
    four fields are cleared; otherwise the joined errors are shown and the
    fields keep what was submitted. *)
Theorem submission_outcome (p : Page) :
  let n := trim (name (fields p)) in
  let e := trim (email (fields p)) in
  let s := trim (subject (fields p)) in
  let m := trim (message (fields p)) in
  let v := validate (trim (name (fields p))) (trim (email (fields p)))
                    (trim (subject (fields p))) (trim (message (fields p))) in
  let no_rule_violated :=
    n <> [] /\ e <> [] /\ email_shape e /\ s <> [] /\ m <> [] /\
    (10 <= length m)%nat in
  (isValid v = true <-> errors v = [])
  /\ (errors v = [] ->
        formMessage (on_submit p)
        = Some {| innerHTML :=
                    "Thank you for your message! I'll get back to you soon.";
                  className := success |}
        /\ fields (on_submit p)
           = {| name := []; email := []; subject := []; message := [] |})
  /\ (errors v <> [] ->
        formMessage (on_submit p)
        = Some {| innerHTML := join "<br>" (errors v); className := error |}
        /\ fields (on_submit p) = fields p)
  /\ ((exists text, formMessage (on_submit p)
                    = Some {| innerHTML := text; className := success |})
      <-> errors v = [])
  /\ (errors v = [] <-> no_rule_violated)
  /\ (isValid v = true <-> no_rule_violated)
  /\ (no_rule_violated ->
        on_submit p
        = {| fields := {| name := []; email := []; subject := [];
                          message := [] |};
             formMessage :=
               Some {| innerHTML :=
                         "Thank you for your message! I'll get back to you soon.";
                       className := success |} |})
  /\ (~ no_rule_violated ->
        on_submit p
        = {| fields := fields p;
             formMessage :=
               Some {| innerHTML := join "<br>" (errors v);
                       className := error |} |}
        /\ errors v <> []).
Proof.
  intros n e s m v rules.
  assert (Hrules : errors v = [] <-> rules) by apply validate_no_errors.
  assert (Hstep : isValid v = true <-> errors v = []) by apply validate_in_step.
  split; [exact Hstep |].
  split; [| split; [| split; [| split; [| split; [| split]]]]].
  - intros H. rewrite (on_submit_accepted p H). split; reflexivity.
  - intros H. rewrite (on_submit_rejected p H). split; reflexivity.
  - split.
    + intros [text H]. destruct (errors v) eqn:E; [reflexivity |].
      rewrite on_submit_rejected in H; [discriminate |].
      fold v. unfold trimmed. fold v. rewrite E. discriminate.
    + intros H. rewrite (on_submit_accepted p H). eexists. reflexivity.
  - exact Hrules.
  - rewrite Hstep. exact Hrules.
  - intros H. apply Hrules in H. rewrite (on_submit_accepted p H). reflexivity.
  - intros H. assert (Hne : errors v <> []) by (intros E; apply H, Hrules, E).
    split; [| exact Hne]. rewrite (on_submit_rejected p Hne). reflexivity.
Qed.

(** ** Worked submissions *)

Definition blank_page : Page :=
  {| fields := {| name := js "  "; email := []; subject := js " ";
                  message := [10%N] |};
     formMessage := None |}.

Example blank_submission :
  on_submit blank_page
  = {| fields := fields blank_page;
       formMessage :=
         Some {| innerHTML :=
                   "Name is required<br>Email is required<br>Subject is required<br>Message is required";
                 className := error |} |}.
Proof. reflexivity. Qed.

Definition undotted_page : Page :=
  {| fields := {| name := js "Ada"; email := js " a@b ";
                  subject := js "Hello"; message := js "0123456789" |};
     formMessage := None |}.

Example undotted_submission :
  formMessage (on_submit undotted_page)
  = Some {| innerHTML := "Please enter a valid email address";
            className := error |}.
Proof. reflexivity. Qed.

Example short_message_submission :
  formMessage (on_submit
    {| fields := {| name := js "Ada"; email := js "ada@example.org";
                    subject := js "Hello"; message := js " 123456789 " |};
       formMessage := None |})
  = Some {| innerHTML := "Message must be at least 10 characters long";
            className := error |}.
Proof. reflexivity. Qed.

Example valid_submission :
  on_submit
    {| fields := {| name := js "Ada"; email := js "ada@example.org";
                    subject := js "Hello"; message := js "0123456789" |};
       formMessage := None |}
  = {| fields := defaultFields;
       formMessage := Some {| innerHTML := msg_success; className := success |} |}.
Proof. reflexivity. Qed.

(** ** More about submissions *)

Definition blank (s : jsstring) : Prop :=
  Forall (fun c => is_whitespace c = true) s.

Lemma drop_while_app {A} (p : A -> bool) (s w : list A) :
  drop_while p (s ++ w)
  = match drop_while p s with
    | [] => drop_while p w
    | r => r ++ w
    end.
Proof.
  induction s as [| x s IH]; simpl; [destruct (drop_while p w); reflexivity |].
  destruct (p x); [exact IH | reflexivity].
Qed.

Lemma drop_while_blank s : blank s -> drop_while is_whitespace s = [].
Proof.
  induction 1 as [| c s Hc _ IH]; [reflexivity |].
  simpl. rewrite Hc. exact IH.
Qed.

Lemma trimStart_pad l s : blank l -> trimStart (l ++ s) = trimStart s.
Proof.
  intros H. unfold trimStart. rewrite drop_while_app, (drop_while_blank l H).
  reflexivity.
Qed.

Lemma trimEnd_pad s r : blank r -> trimEnd (s ++ r) = trimEnd s.
Proof.
  intros H. unfold trimEnd. rewrite rev_app_distr, drop_while_app.
  rewrite drop_while_blank; [reflexivity |].
  apply Forall_rev, H.
Qed.

Lemma trim_pad l s r : blank l -> blank r -> trim (l ++ s ++ r) = trim s.
Proof.
  intros Hl Hr. unfold trim. rewrite (trimStart_pad l _ Hl).
  unfold trimStart at 1. rewrite drop_while_app.
  fold (trimStart s). destruct (trimStart s) as [| c t] eqn:E.
  - rewrite (drop_while_blank r Hr). reflexivity.
  - apply trimEnd_pad, Hr.
Qed.

(** White space put before and after the four values. *)
Definition pad_fields (pre post f : Fields) : Fields :=
  {| name := name pre ++ name f ++ name post;
     email := email pre ++ email f ++ email post;
     subject := subject pre ++ subject f ++ subject post;
     message := message pre ++ message f ++ message post |}.

Definition blank_fields (f : Fields) : Prop :=
  blank (name f) /\ blank (email f) /\ blank (subject f) /\ blank (message f).

(** X22: white space typed before or after a value never changes the verdict:
    a submission and the same submission with its four values padded with
    white space show the same message. *)
Theorem padding_is_ignored (pre post : Fields) (p : Page) :
  blank_fields pre -> blank_fields post ->
  formMessage (on_submit {| fields := pad_fields pre post (fields p);
                            formMessage := formMessage p |})
  = formMessage (on_submit p).
Proof.
  intros (Hn & He & Hs & Hm) (Hn' & He' & Hs' & Hm').
  unfold on_submit. cbn [fields pad_fields name email subject message].
  rewrite !trim_pad by assumption.
  destruct (isValid _); reflexivity.
Qed.

Lemma padding_is_ignored_witness :
  formMessage (on_submit
    {| fields := pad_fields (mkFields (js " ") [] [9%N] []) (mkFields [] (js "  ") [] [10%N])
                            (fields undotted_page);
       formMessage := None |})
  = formMessage (on_submit undotted_page).
Proof.
  apply (padding_is_ignored (mkFields (js " ") [] [9%N] [])
                            (mkFields [] (js "  ") [] [10%N]) undotted_page);
    repeat split; repeat constructor.
Defined.

(** X23: a submission that was accepted has emptied the form, so that
    submitting again at once is rejected with the four "required" messages;
    a submission that was rejected has changed no field, so that submitting
    again at once gives the same page. *)
Theorem resubmission (p : Page) :
  (errors (trimmed p) = [] ->
     on_submit (on_submit p)
     = {| fields := defaultFields;
          formMessage :=
            Some {| innerHTML :=
                      join "<br>" [ "Name is required"; "Email is required";
                                    "Subject is required"; "Message is required" ];
                    className := error |} |}) /\
  (errors (trimmed p) <> [] -> on_submit (on_submit p) = on_submit p).
Proof.
  split; intros H.
  - rewrite (on_submit_accepted p H). reflexivity.
  - rewrite (on_submit_rejected p H).
    rewrite on_submit_rejected; [reflexivity | exact H].
Qed.

(** ** What an accepted address looks like *)

Lemma all_in_no_at s : all_in not_space_at s -> count_occ N.eq_dec s 64%N = 0%nat.
Proof.
  induction 1 as [| c s Hc _ IH]; [reflexivity |].
  simpl. destruct (N.eq_dec c 64%N) as [E | _]; [| exact IH].
  subst c. vm_compute in Hc. discriminate.
Qed.

Lemma all_in_no_space s :
  all_in not_space_at s -> Forall (fun c => is_whitespace c = false) s.
Proof.
  induction 1 as [| c s Hc _ IH]; constructor; [| exact IH].
  unfold not_space_at in Hc. apply negb_true_iff, orb_false_iff in Hc.
  apply Hc.
Qed.

(** X24: an address that [isValidEmail] accepts has exactly one [@], holds no
    white space, has at least five characters, and has a dot after the [@]
    that is neither next to it nor the last character. *)
Theorem accepted_email_facts (e : jsstring) :
  isValidEmail e = true ->
  count_occ N.eq_dec e 64%N = 1%nat /\
  Forall (fun c => is_whitespace c = false) e /\
  (5 <= length e)%nat /\
  exists a b c, e = a ++ [64%N] ++ b ++ [46%N] ++ c /\
                a <> [] /\ b <> [] /\ c <> [] /\
                ~ In 64%N a /\ ~ In 64%N b /\ ~ In 64%N c.
Proof.
  intros H. apply isValidEmail_shape in H
    as (a & b & c & -> & Ha & Hb & Hc & Pa & Pb & Pc).
  split; [| split; [| split]].
  - rewrite !count_occ_app, (all_in_no_at a Pa), (all_in_no_at b Pb),
      (all_in_no_at c Pc). reflexivity.
  - repeat (apply Forall_app; split); try (apply all_in_no_space; assumption);
      repeat constructor.
  - rewrite !length_app. simpl.
    destruct a, b, c; simpl; try contradiction; lia.
  - exists a, b, c. repeat split; try assumption;
      apply (count_occ_not_In N.eq_dec), all_in_no_at; assumption.
Qed.

Lemma accepted_email_facts_witness : (5 <= length (js "a@b.c"))%nat.
Proof.
  destruct (accepted_email_facts (js "a@b.c") eq_refl) as (_ & _ & H & _).
  exact H.
Defined.

(** Accepted all the same: two dots in a row, and a dot at the end. *)
Example isValidEmail_odd_dots :
  isValidEmail (js "a@b..c") = true /\ isValidEmail (js "a@b.c.") = true.
Proof. split; reflexivity. Qed.

End Form.

(* ================================================================== *)
(** * Stat counters ([animateCounter]) *)
(* ================================================================== *)

Module Counter.

Import JS.

(** ** Numbers

    The animation divides, adds, compares and rounds down.  What it displays
    at each step is stated below for any implementation of these operations.
    [ieee] implements them as JavaScript does, on double-precision numbers:
    the primitive floats, whose operations the Standard Library specifies by
    [SpecFloat]. *)
Record Arithmetic := mkArithmetic {
  num       : Type;
  nan       : num;                      (* NaN *)
  of_Z      : Z -> num;                 (* an integer literal or parse result *)
  add       : num -> num -> num;        (* a + b *)
  div       : num -> num -> num;        (* a / b *)
  geb       : num -> num -> bool;       (* a >= b *)
  floor     : num -> num;               (* Math.floor(a) *)
  to_string : num -> jsstring           (* the string a number concatenates as *)
}.

(** The decimal digits of an integer. *)
Definition decimal_string (z : Z) : jsstring :=
  js (NilZero.string_of_int (Z.to_int z)).

(** Double precision.  [ieee_of_Z] rounds an integer to the nearest double;
    [floor_Z] is the integer below a finite double. *)
Definition ieee_of_Z (z : Z) : float :=
  SF2Prim (binary_normalize 53 1024 z 0 false).

Definition floor_Z (x : float) : option Z :=
  match Prim2SF x with
  | S754_zero _ => Some 0%Z
  | S754_finite s m e =>
      let n := if s then Z.neg m else Z.pos m in
      Some (if (0 <=? e)%Z then n * 2 ^ e else n / 2 ^ (- e))%Z
  | S754_infinity _ => None
  | S754_nan => None
  end.

Definition ieee_floor (x : float) : float :=
  match floor_Z x with
  | Some z => ieee_of_Z z
  | None => x
  end.

(** *** [Number::toString]

    The text of a finite double that is not zero is made of the digits of
    the integer [s] and of the exponent [n] for which [s * 10^(n-k)], with
    [k] the number of digits of [s], rounds to the double, [k] is as small
    as possible and, among these, [s * 10^(n-k)] is nearest to the double
    (the even [s] of two). *)

(** The numbers that round to the double [m * 2^e] (with [m > 0] and the
    pair canonical): the fractions between [lo / den] and [hi / den], where
    [v / den] is the double itself.  The bounds are the midpoints to the
    neighbouring doubles; the lower neighbour is at half the distance when
    the mantissa is the smallest of its binade. *)
Definition rounding_interval (m : positive) (e : Z) : Z * Z * Z * Z :=
  let boundary := ((Z.pos m =? 2 ^ 52) && (-1074 <? e))%Z in
  let lo := (if boundary then 4 * Z.pos m - 1 else 4 * Z.pos m - 2)%Z in
  let v := (4 * Z.pos m)%Z in
  let hi := (4 * Z.pos m + 2)%Z in
  if (2 <=? e)%Z
  then (lo * 2 ^ (e - 2), v * 2 ^ (e - 2), hi * 2 ^ (e - 2), 1)%Z
  else (lo, v, hi, 2 ^ (2 - e))%Z.

(** [x / den] in units of [10^q], as a fraction. *)
Definition in_units (q x den : Z) : Z * Z :=
  if (0 <=? q)%Z then (x, den * 10 ^ q)%Z else (x * 10 ^ (- q), den)%Z.

Definition ceil_div (a b : Z) : Z := (- ((- a) / b))%Z.

(** The integers [s] with [s * 10^q] in the interval: from the first to the
    second component.  The bounds count when [closed] (they round to the
    double when its mantissa is even). *)
Definition candidates (closed : bool) (lo hi den q : Z) : Z * Z :=
  let '(l, d) := in_units q lo den in
  let '(h, _) := in_units q hi den in
  if closed then (ceil_div l d, h / d)%Z
  else (l / d + 1, ceil_div h d - 1)%Z.

(** The integer nearest to [v / den] in units of [10^q], the even one of
    two. *)
Definition nearest (v den q : Z) : Z :=
  let '(x, d) := in_units q v den in
  let s := (x / d)%Z in
  match (2 * (x - s * d) ?= d)%Z with
  | Lt => s
  | Gt => (s + 1)%Z
  | Eq => if Z.even s then s else (s + 1)%Z
  end.

(** The largest [q] not above the given one for which some [s * 10^q] lies
    in the interval (the fewest digits), with the [s] nearest to the
    double. *)
Fixpoint shortest (fuel : nat) (closed : bool) (lo v hi den q : Z) : Z * Z :=
  let '(smin, smax) := candidates closed lo hi den q in
  if (smin <=? smax)%Z
  then (Z.max smin (Z.min smax (nearest v den q)), q)
  else match fuel with
       | O => (0%Z, q)
       | S fuel' => shortest fuel' closed lo v hi den (q - 1)
       end.

Definition zeros (n : Z) : jsstring := repeat 48%N (Z.to_nat n).

(** The text of [0.d1...dk * 10^n], for the digits [ds = d1...dk]: plain
    digits for an integer below [10^21], a decimal point down to [10^-7],
    and an exponent otherwise. *)
Definition format_digits (ds : jsstring) (n : Z) : jsstring :=
  let k := Z.of_nat (length ds) in
  if ((k <=? n) && (n <=? 21))%Z then ds ++ zeros (n - k)
  else if ((0 <? n) && (n <=? 21))%Z
  then firstn (Z.to_nat n) ds ++ js "." ++ skipn (Z.to_nat n) ds
  else if ((-6 <? n) && (n <=? 0))%Z then js "0." ++ zeros (- n) ++ ds
  else
    let exponent :=
      js (if (0 <=? n - 1)%Z then "e+" else "e-")
      ++ decimal_string (Z.abs (n - 1)) in
    match ds with
    | [] => []
    | [d] => [d] ++ exponent
    | d :: rest => [d] ++ js "." ++ rest ++ exponent
    end.

(** The search starts above the decimal exponent of the double ([10^q]
    exceeds [2^(3q)]) and ends at [10^-1074] at the latest, of which every
    double is a multiple. *)
Definition positive_to_string (m : positive) (e : Z) : jsstring :=
  let '(lo, v, hi, den) := rounding_interval m e in
  let q0 := (Z.log2 (hi / den + 1) / 3 + 1)%Z in
  let '(s, q) := shortest (Z.to_nat (q0 + 1075)) (Z.even (Z.pos m))
                          lo v hi den q0 in
  let ds := decimal_string s in
  format_digits ds (q + Z.of_nat (length ds)).

(** [Number::toString(x)] in radix 10, the string a number concatenates
    as. *)
Definition ieee_to_string (x : float) : jsstring :=
  match Prim2SF x with
  | S754_nan => js "NaN"
  | S754_zero _ => js "0"
  | S754_infinity s => js (if s then "-Infinity" else "Infinity")
  | S754_finite s m e => (if s then js "-" else []) ++ positive_to_string m e
  end.

Example ieee_to_string_samples :
  map (fun z => ieee_to_string (ieee_of_Z z))
      [0; 7; 250; 9007199254740993; 123456789012345678901;
       1000000000000000000000; 1234567890123456789012345]%Z
  = map js ["0"; "7"; "250"; "9007199254740992"; "123456789012345680000";
            "1e+21"; "1.2345678901234568e+24"]
  /\ map ieee_to_string
         [PrimFloat.div (ieee_of_Z 1) (ieee_of_Z 8);
          PrimFloat.div (ieee_of_Z 1) (ieee_of_Z 10);
          PrimFloat.div (ieee_of_Z (-5)) (ieee_of_Z 2);
          PrimFloat.div (ieee_of_Z 1) (ieee_of_Z 10000000);
          PrimFloat.div (ieee_of_Z 1) (ieee_of_Z 0);
          PrimFloat.div (ieee_of_Z 0) (ieee_of_Z 0)]
     = map js ["0.125"; "0.1"; "-2.5"; "1e-7"; "Infinity"; "NaN"].
Proof. split; vm_compute; reflexivity. Qed.

Definition ieee : Arithmetic :=
  {| num := float;
     nan := PrimFloat.nan;
     of_Z := ieee_of_Z;
     add := PrimFloat.add;
     div := PrimFloat.div;
     geb := fun a b => PrimFloat.leb b a;
     floor := ieee_floor;
     to_string := ieee_to_string |}.

(** ** Parsing the text of the element *)

(** [text.replace(/\D/g, '')] and [text.replace(/\d/g, '')] *)
Definition digits_of (text : jsstring) : jsstring := List.filter is_digit text.
Definition non_digits (text : jsstring) : jsstring :=
  List.filter (fun c => negb (is_digit c)) text.

Definition has_digit (text : jsstring) : bool := existsb is_digit text.

Definition digit_value (c : N) : Z := Z.of_N c - 48.

Definition decimal_value (ds : jsstring) : Z :=
  fold_left (fun acc c => 10 * acc + digit_value c)%Z ds 0%Z.

(** [parseInt] on a string of ASCII digits, the only strings it is given
    here: NaN for the empty string, the decimal value otherwise. *)
Definition parseInt (A : Arithmetic) (ds : jsstring) : num A :=
  match ds with
  | [] => nan A
  | _ => of_Z A (decimal_value ds)
  end.

(** ** The animation *)

(** The element, the locals of [animateCounter] and the interval timer. *)
Record Animation (A : Arithmetic) := mkAnimation {
  textContent : jsstring;     (* element.textContent *)
  target      : num A;
  suffix      : jsstring;
  current     : num A;
  increment   : num A;
  stepTime    : Z;            (* the period of the timer, in ms *)
  running     : bool;         (* the interval has not been cleared *)
  elapsed     : Z             (* ms since the timer was set *)
}.

Arguments textContent {A}.
Arguments target {A}.
Arguments suffix {A}.
Arguments current {A}.
Arguments increment {A}.
Arguments stepTime {A}.
Arguments running {A}.
Arguments elapsed {A}.

(** [animateCounter(element)] up to and including [setInterval]. *)
Definition animateCounter (A : Arithmetic) (text : jsstring) : Animation A :=
  let target := parseInt A (digits_of text) in
  let suffix := non_digits text in
  let current := of_Z A 0 in
  let increment := div A target (of_Z A 50) in
  let duration := 2000%Z in
  let stepTime := (duration / 50)%Z in
  {| textContent := text; target := target; suffix := suffix;
     current := current; increment := increment; stepTime := stepTime;
     running := true; elapsed := 0 |}.

(** One period of the timer: the callback runs unless the interval has been
    cleared. *)
Definition tick {A : Arithmetic} (s : Animation A) : Animation A :=
  if running s then
    let current := add A (current s) (increment s) in
    if geb A current (target s) then
      {| textContent := to_string A (target s) ++ suffix s;
         target := target s; suffix := suffix s;
         current := current; increment := increment s;
         stepTime := stepTime s;
         running := false; elapsed := elapsed s + stepTime s |}
    else
      {| textContent := to_string A (floor A current) ++ suffix s;
         target := target s; suffix := suffix s;
         current := current; increment := increment s;
         stepTime := stepTime s;
         running := true; elapsed := elapsed s + stepTime s |}
  else s.

Fixpoint ticks {A : Arithmetic} (k : nat) (s : Animation A) : Animation A :=
  match k with
  | O => s
  | S k' => tick (ticks k' s)
  end.

(** The texts written by the callback during [n] periods, oldest first. *)
Fixpoint frames {A : Arithmetic} (n : nat) (s : Animation A) : list jsstring :=
  match n with
  | O => []
  | S n' => if running s
            then textContent (tick s) :: frames n' (tick s)
            else []
  end.

(** The value accumulated by [k] additions of the increment. *)
Fixpoint accumulated {A : Arithmetic} (s : Animation A) (k : nat) : num A :=
  match k with
  | O => current s
  | S k' => add A (accumulated s k') (increment s)
  end.

(** ** The timer, for any arithmetic *)

Section Timer.

Context {A : Arithmetic}.

Implicit Types s : Animation A.

Lemma tick_stopped s : running s = false -> tick s = s.
Proof. intros H. unfold tick. rewrite H. reflexivity. Qed.

Lemma ticks_S k s : ticks (S k) s = tick (ticks k s).
Proof. reflexivity. Qed.

Lemma ticks_tick k : forall s, ticks (S k) s = ticks k (tick s).
Proof.
  induction k as [| k IH]; intros s; [reflexivity |].
  change (ticks (S (S k)) s) with (tick (ticks (S k) s)).
  rewrite IH. reflexivity.
Qed.

(** The locals that are never assigned again. *)
Lemma tick_constants s :
  target (tick s) = target s /\ suffix (tick s) = suffix s /\
  increment (tick s) = increment s /\ stepTime (tick s) = stepTime s.
Proof.
  unfold tick. destruct (running s); [| repeat split].
  destruct (geb A _ _); repeat split.
Qed.

Lemma ticks_constants k s :
  target (ticks k s) = target s /\ suffix (ticks k s) = suffix s /\
  increment (ticks k s) = increment s /\ stepTime (ticks k s) = stepTime s.
Proof.
  induction k as [| k (Ht & Hs & Hi & Hp)]; [repeat split |].
  simpl. destruct (tick_constants (ticks k s)) as (Ht' & Hs' & Hi' & Hp').
  rewrite Ht', Hs', Hi', Hp'. auto.
Qed.

(** While the timer runs, [current] is the accumulated value and the clock
    has advanced by one period per callback. *)
Lemma ticks_running k s :
  running (ticks k s) = true ->
  running s = true /\
  current (ticks k s) = accumulated s k /\
  elapsed (ticks k s) = (elapsed s + Z.of_nat k * stepTime s)%Z.
Proof.
  induction k as [| k IH].
  - simpl. intros H. repeat split; [exact H | lia].
  - change (ticks (S k) s) with (tick (ticks k s)).
    destruct (ticks_constants k s) as (Ht & _ & Hi & Hp).
    unfold tick. destruct (running (ticks k s)) eqn:Hr.
    + destruct (IH eq_refl) as (H0 & Hc & He).
      destruct (geb A _ _); simpl; [discriminate |].
      intros _. rewrite Hc, Hi, He, Hp. repeat split; [exact H0 | lia].
    + rewrite Hr. discriminate.
Qed.

(** The callback that follows [k] earlier ones. *)
Lemma next_tick k s :
  running (ticks k s) = true ->
  (geb A (accumulated s (S k)) (target s) = false ->
     textContent (ticks (S k) s)
       = to_string A (floor A (accumulated s (S k))) ++ suffix s /\
     running (ticks (S k) s) = true) /\
  (geb A (accumulated s (S k)) (target s) = true ->
     textContent (ticks (S k) s) = to_string A (target s) ++ suffix s /\
     running (ticks (S k) s) = false).
Proof.
  intros Hr. destruct (ticks_running k s Hr) as (_ & Hc & _).
  destruct (ticks_constants k s) as (Ht & Hs & Hi & _).
  change (ticks (S k) s) with (tick (ticks k s)).
  unfold tick. rewrite Hr, Hc, Hi, Ht, Hs. simpl.
  split; intros ->; split; reflexivity.
Qed.

Lemma frames_stopped n s : running s = false -> frames n s = [].
Proof. intros H. destruct n; simpl; [| rewrite H]; reflexivity. Qed.

(** Once the interval is cleared nothing more is written. *)
Lemma frames_stable n : forall s m,
  running (ticks n s) = false -> frames (n + m) s = frames n s.
Proof.
  induction n as [| n IH]; intros s m H.
  - simpl in H. rewrite !frames_stopped by exact H. reflexivity.
  - rewrite ticks_tick in H. simpl.
    destruct (running s); [| reflexivity].
    rewrite (IH _ _ H). reflexivity.
Qed.

Lemma frames_length n : forall s,
  running (ticks n s) = true -> length (frames n s) = n.
Proof.
  induction n as [| n IH]; intros s H; [reflexivity |].
  pose proof H as H'. rewrite ticks_tick in H'.
  destruct (ticks_running _ _ H) as (H0 & _). simpl. rewrite H0. simpl.
  rewrite (IH _ H'). reflexivity.
Qed.

End Timer.

(** ** Whether the sums reach the target *)

(** The comparisons of the first [k] callbacks, on the numbers alone. *)
Fixpoint reaches {A : Arithmetic} (target increment : num A) (k : nat)
  (current : num A) : bool :=
  match k with
  | O => false
  | S k' =>
      let current := add A current increment in
      geb A current target || reaches target increment k' current
  end.

Lemma ticks_stopped {A : Arithmetic} k (s : Animation A) :
  running s = false -> ticks k s = s.
Proof.
  intros H. induction k as [| k IH]; [reflexivity |].
  rewrite ticks_S, IH. apply tick_stopped, H.
Qed.

Lemma ticks_reaches {A : Arithmetic} k : forall s : Animation A,
  running s = true ->
  running (ticks k s)
  = negb (reaches (target s) (increment s) k (current s)).
Proof.
  induction k as [| k IH]; intros s Hr; [exact Hr |].
  rewrite ticks_tick. destruct (tick_constants s) as (Ht & _ & Hi & _).
  cbn [reaches].
  destruct (geb A (add A (current s) (increment s)) (target s)) eqn:Hg.
  - rewrite ticks_stopped; unfold tick; rewrite Hr, Hg; reflexivity.
  - rewrite IH, Ht, Hi; unfold tick; rewrite Hr, Hg; reflexivity.
Qed.

Lemma animateCounter_reaches (A : Arithmetic) text k :
  running (ticks k (animateCounter A text))
  = negb (reaches (parseInt A (digits_of text))
                  (div A (parseInt A (digits_of text)) (of_Z A 50))
                  k (of_Z A 0)).
Proof. apply (ticks_reaches k (animateCounter A text)). reflexivity. Qed.

(** ** The digits of the text *)

Lemma digits_of_nil text : digits_of text = [] <-> has_digit text = false.
Proof.
  unfold digits_of, has_digit. induction text as [| c text IH]; simpl.
  - split; reflexivity.
  - destruct (is_digit c); simpl; [split; discriminate | exact IH].
Qed.

Lemma digits_of_digits text : Forall (fun c => is_digit c = true) (digits_of text).
Proof.
  unfold digits_of. induction text as [| c text IH]; simpl; [constructor |].
  destruct (is_digit c) eqn:E; [constructor |]; assumption.
Qed.

Lemma decimal_value_nonneg ds :
  Forall (fun c => is_digit c = true) ds -> (0 <= decimal_value ds)%Z.
Proof.
  unfold decimal_value. intros H.
  assert (G : forall acc, (0 <= acc)%Z ->
            (0 <= fold_left (fun acc c => 10 * acc + digit_value c) ds acc)%Z).
  { induction H as [| c ds Hc _ IH]; intros acc Hacc; simpl; [exact Hacc |].
    apply IH. unfold is_digit in Hc. apply andb_true_iff in Hc as [Hc _].
    apply N.leb_le in Hc. unfold digit_value. lia. }
  apply G. lia.
Qed.

Lemma parseInt_digits (A : Arithmetic) text :
  has_digit text = true ->
  parseInt A (digits_of text) = of_Z A (decimal_value (digits_of text)).
Proof.
  intros H. destruct (digits_of text) as [| d ds] eqn:E; [| reflexivity].
  apply digits_of_nil in E. congruence.
Qed.

(** ** NaN *)

(** What the animation needs to know of NaN: it is what the division and
    the additions give once the target is NaN, no comparison with it holds,
    and it is written "NaN". *)
Class NaNLaws (A : Arithmetic) : Prop := {
  div_nan   : forall d, div A (nan A) d = nan A;
  add_nan   : forall c, add A c (nan A) = nan A;
  geb_nan   : forall c, geb A c (nan A) = false;
  floor_nan : to_string A (floor A (nan A)) = js "NaN"
}.

Lemma ieee_is_nan (x : float) : Prim2SF x = S754_nan -> x = PrimFloat.nan.
Proof. intros H. rewrite <- (SF2Prim_Prim2SF x), H. reflexivity. Qed.

#[export] Instance ieee_NaNLaws : NaNLaws ieee.
Proof.
  split; simpl.
  - intros d. apply ieee_is_nan. rewrite div_spec. reflexivity.
  - intros c. apply ieee_is_nan. rewrite add_spec.
    change (Prim2SF PrimFloat.nan) with S754_nan.
    destruct (Prim2SF c); reflexivity.
  - intros c. rewrite leb_spec. reflexivity.
  - reflexivity.
Qed.

Section NoDigit.

Context {A : Arithmetic} `{!NaNLaws A}.

Variable text : jsstring.
Hypothesis no_digit : has_digit text = false.

Lemma no_digit_target : target (animateCounter A text) = nan A.
Proof.
  apply digits_of_nil in no_digit.
  unfold animateCounter; simpl. rewrite no_digit. reflexivity.
Qed.

Lemma no_digit_increment : increment (animateCounter A text) = nan A.
Proof.
  apply digits_of_nil in no_digit.
  unfold animateCounter; simpl. rewrite no_digit. apply div_nan.
Qed.

Lemma no_digit_accumulated k : accumulated (animateCounter A text) (S k) = nan A.
Proof. cbn [accumulated]. rewrite no_digit_increment. apply add_nan. Qed.

Lemma no_digit_compare k :
  geb A (accumulated (animateCounter A text) (S k))
        (target (animateCounter A text)) = false.
Proof. rewrite no_digit_target. apply geb_nan. Qed.

Lemma no_digit_runs k : running (ticks k (animateCounter A text)) = true.
Proof.
  induction k as [| k IH]; [reflexivity |].
  destruct (next_tick k _ IH) as [Hstep _].
  apply Hstep, no_digit_compare.
Qed.

Lemma no_digit_text k :
  textContent (ticks (S k) (animateCounter A text))
  = js "NaN" ++ suffix (animateCounter A text).
Proof.
  destruct (next_tick k _ (no_digit_runs k)) as [Hstep _].
  destruct (Hstep (no_digit_compare k)) as [-> _].
  rewrite no_digit_accumulated, floor_nan. reflexivity.
Qed.

End NoDigit.

(** ** The sums of the increment *)

(** The sum after [k] additions of the increment. *)
Fixpoint sums {A : Arithmetic} (inc : num A) (k : nat) (c : num A) : num A :=
  match k with
  | O => c
  | S k' => add A (sums inc k' c) inc
  end.

Lemma sums_shift {A : Arithmetic} (inc : num A) k c :
  sums inc k (add A c inc) = add A (sums inc k c) inc.
Proof.
  induction k as [| k IH]; [reflexivity |]. cbn [sums]. rewrite IH. reflexivity.
Qed.

(** The interval is cleared by the first sum that compares as reached. *)
Lemma reaches_sums {A : Arithmetic} (t inc : num A) n : forall k c,
  (n < k)%nat -> geb A (sums inc (S n) c) t = true ->
  reaches t inc k c = true.
Proof.
  induction n as [| n IH]; intros k c Hk H; (destruct k as [| k]; [lia |]);
    cbn [reaches].
  - cbn [sums] in H. rewrite H. reflexivity.
  - apply orb_true_iff. right. apply IH; [lia |].
    rewrite sums_shift. exact H.
Qed.

(** ** Rounding in double precision

    The sums are rounded, so that fifty additions of the fiftieth part need
    not give the target (see [ieee_five_takes_51] below).  What follows
    bounds the rounded numbers from below: rounding to nearest never goes
    below a number of the format, and the multiples [k * 2^j] with [k] of at
    most 53 bits are such numbers.  Values are compared as integers, in
    units of [2^-5000]. *)

Section Rounding.

#[local] Open Scope Z_scope.

Definition bpow (e : Z) : Z := 2 ^ (e + 5000).

Lemma bpow_pos e : -5000 <= e -> 0 < bpow e.
Proof. intros H. unfold bpow. apply Z.pow_pos_nonneg; lia. Qed.

Lemma bpow_add e n : -5000 <= e -> 0 <= n -> bpow (e + n) = bpow e * 2 ^ n.
Proof.
  intros He Hn. unfold bpow.
  replace (e + n + 5000) with (e + 5000 + n) by lia.
  apply Z.pow_add_r; lia.
Qed.

Lemma bpow_le a b : -5000 <= a -> a <= b -> bpow a <= bpow b.
Proof. intros Ha Hab. unfold bpow. apply Z.pow_le_mono_r; lia. Qed.

Lemma bpow_mul a b :
  -5000 <= a -> -5000 <= b -> -5000 <= a + b ->
  bpow a * bpow b = bpow (a + b) * bpow 0.
Proof.
  intros Ha Hb Hab. unfold bpow. rewrite <- !Z.pow_add_r by lia.
  f_equal. lia.
Qed.

Lemma digits2_pos_bounds p :
  2 ^ (Z.pos (digits2_pos p) - 1) <= Z.pos p < 2 ^ Z.pos (digits2_pos p).
Proof.
  induction p as [p IH | p IH |]; cbn [digits2_pos].
  - rewrite Pos2Z.inj_succ, (Pos2Z.inj_xI p).
    replace (Z.succ (Z.pos (digits2_pos p)) - 1)
      with (Z.succ (Z.pos (digits2_pos p) - 1)) by lia.
    rewrite !Z.pow_succ_r by lia.
    revert IH. generalize (2 ^ (Z.pos (digits2_pos p) - 1)).
    generalize (2 ^ Z.pos (digits2_pos p)). lia.
  - rewrite Pos2Z.inj_succ, (Pos2Z.inj_xO p).
    replace (Z.succ (Z.pos (digits2_pos p)) - 1)
      with (Z.succ (Z.pos (digits2_pos p) - 1)) by lia.
    rewrite !Z.pow_succ_r by lia.
    revert IH. generalize (2 ^ (Z.pos (digits2_pos p) - 1)).
    generalize (2 ^ Z.pos (digits2_pos p)). lia.
  - split; [discriminate | reflexivity].
Qed.

(** A number that is at least 1 has a positive magnitude. *)
Lemma magnitude_positive m e :
  -5000 <= e -> bpow 0 <= Z.pos m * bpow e ->
  1 <= Z.pos (digits2_pos m) + e.
Proof.
  intros He H. pose proof (digits2_pos_bounds m) as [_ Hhi].
  pose proof (bpow_pos e He) as Hbe.
  destruct (Z_lt_le_dec (Z.pos (digits2_pos m) + e) 1) as [Hlt | Hge];
    [exfalso | exact Hge].
  assert (Hb : bpow (e + Z.pos (digits2_pos m)) <= bpow 0) by (apply bpow_le; lia).
  rewrite bpow_add in Hb by lia. nia.
Qed.

Lemma shr_1_half mrs :
  0 <= shr_m mrs -> shr_m (shr_1 mrs) = shr_m mrs / 2.
Proof.
  destruct mrs as [m r s]. destruct m as [| [p | p |] |]; cbn [shr_1 shr_m];
    intros H; try lia; try reflexivity.
  - rewrite (Pos2Z.inj_xI p). apply Z.div_unique with 1; lia.
  - rewrite (Pos2Z.inj_xO p). apply Z.div_unique with 0; lia.
Qed.

Lemma iter_pos_shr_1 p : forall mrs,
  0 <= shr_m mrs ->
  shr_m (SpecFloat.iter_pos shr_1 p mrs) = shr_m mrs / 2 ^ Z.pos p.
Proof.
  induction p as [p IH | p IH |]; intros mrs H; cbn [SpecFloat.iter_pos].
  - assert (H1 : 0 <= shr_m (shr_1 mrs))
      by (rewrite shr_1_half by exact H; apply Z.div_pos; lia).
    assert (Hp : 0 < 2 ^ Z.pos p) by (apply Z.pow_pos_nonneg; lia).
    assert (H2 : 0 <= shr_m (SpecFloat.iter_pos shr_1 p (shr_1 mrs)))
      by (rewrite IH by exact H1; apply Z.div_pos; lia).
    rewrite IH by exact H2. rewrite IH by exact H1.
    rewrite shr_1_half by exact H.
    rewrite !Z.div_div by lia.
    f_equal. rewrite (Pos2Z.inj_xI p).
    replace (2 * Z.pos p + 1) with (1 + Z.pos p + Z.pos p) by lia.
    rewrite !Z.pow_add_r by lia. change (2 ^ 1) with 2. lia.
  - assert (Hp : 0 < 2 ^ Z.pos p) by (apply Z.pow_pos_nonneg; lia).
    assert (H2 : 0 <= shr_m (SpecFloat.iter_pos shr_1 p mrs))
      by (rewrite IH by exact H; apply Z.div_pos; lia).
    rewrite IH by exact H2. rewrite IH by exact H.
    rewrite !Z.div_div by lia.
    f_equal. rewrite (Pos2Z.inj_xO p).
    replace (2 * Z.pos p) with (Z.pos p + Z.pos p) by lia.
    rewrite !Z.pow_add_r by lia. lia.
  - rewrite shr_1_half by exact H. reflexivity.
Qed.

Lemma shr_record_of_loc_m m l : shr_m (shr_record_of_loc m l) = m.
Proof. destruct l as [| []]; reflexivity. Qed.

(** What truncation to the format keeps: the exponent does not decrease,
    the mantissa fits 53 bits, and a multiple [k * 2^j] of a power of two
    with [k] of at most 53 bits and [j] at least the smallest exponent stays
    a lower bound. *)
Lemma shr_fexp_lower m e l k j :
  0 <= m -> 0 < k <= 2 ^ 53 -> -1074 <= j -> -5000 <= e ->
  k * bpow j <= m * bpow e ->
  e <= snd (shr_fexp 53 1024 m e l) /\
  0 <= shr_m (fst (shr_fexp 53 1024 m e l)) < 2 ^ 53 /\
  k * bpow j
    <= shr_m (fst (shr_fexp 53 1024 m e l)) * bpow (snd (shr_fexp 53 1024 m e l)).
Proof.
  intros Hm Hk Hj He Hle.
  pose proof (bpow_pos e He) as Hbe.
  pose proof (bpow_pos j ltac:(lia)) as Hbj.
  assert (Hmpos : 0 < m) by nia.
  destruct m as [| p |]; try lia.
  pose proof (digits2_pos_bounds p) as [Hlo Hhi].
  unfold shr_fexp, shr. cbn [Zdigits2].
  set (d := Z.pos (digits2_pos p)) in *.
  unfold fexp, SpecFloat.emin.
  change (3 - 1024 - 53) with (-1074).
  destruct (Z.max (d + e - 53) (-1074) - e) as [| n | n] eqn:En;
    cbn [fst snd]; rewrite ?shr_record_of_loc_m.
  - split; [lia |]. split; [| exact Hle]. split; [lia |].
    assert (d <= 53) by lia.
    apply Z.lt_le_trans with (2 ^ d); [exact Hhi | apply Z.pow_le_mono_r; lia].
  - rewrite iter_pos_shr_1 by (rewrite shr_record_of_loc_m; lia).
    rewrite shr_record_of_loc_m.
    assert (Hn : 0 < 2 ^ Z.pos n) by (apply Z.pow_pos_nonneg; lia).
    split; [lia |]. split.
    + split; [apply Z.div_pos; lia |].
      apply Z.div_lt_upper_bound; [lia |].
      assert (d - 53 <= Z.pos n) by lia.
      destruct (Z_le_gt_dec d 53).
      * apply Z.lt_le_trans with (2 ^ 53 * 1); [| nia].
        rewrite Z.mul_1_r. apply Z.lt_le_trans with (2 ^ d); [exact Hhi |].
        apply Z.pow_le_mono_r; lia.
      * apply Z.lt_le_trans with (2 ^ d); [exact Hhi |].
        replace d with (53 + (d - 53)) at 1 by lia.
        rewrite Z.pow_add_r by lia.
        assert (2 ^ (d - 53) <= 2 ^ Z.pos n) by (apply Z.pow_le_mono_r; lia).
        rewrite (Z.mul_comm (2 ^ Z.pos n)). nia.
    + rewrite (bpow_add e (Z.pos n)) by lia.
      destruct (Z_le_gt_dec (e + Z.pos n) j) as [Hcase | Hcase].
      * (* the bound is a multiple of the new unit *)
        replace j with (e + Z.pos n + (j - (e + Z.pos n))) in Hle |- * by lia.
        rewrite (bpow_add (e + Z.pos n)) in Hle |- * by lia.
        rewrite (bpow_add e (Z.pos n)) in Hle |- * by lia.
        set (u := 2 ^ (j - (e + Z.pos n))) in *.
        assert (Hu : 0 < u) by (apply Z.pow_pos_nonneg; lia).
        assert (Hq : k * u <= Z.pos p / 2 ^ Z.pos n).
        { apply Z.div_le_lower_bound; [lia |]. nia. }
        nia.
      * (* the result has 53 bits and a larger unit *)
        assert (Hn53 : Z.pos n = d - 53) by lia.
        assert (Hq : 2 ^ 52 <= Z.pos p / 2 ^ Z.pos n).
        { apply Z.div_le_lower_bound; [lia |].
          rewrite Hn53, <- Z.pow_add_r by lia.
          replace (d - 53 + 52) with (d - 1) by lia. exact Hlo. }
        assert (Hb : bpow j * 2 <= bpow e * 2 ^ Z.pos n).
        { rewrite <- (bpow_add e (Z.pos n)) by lia.
          change 2 with (2 ^ 1) at 1. rewrite <- bpow_add by lia.
          apply bpow_le; lia. }
        change (2 ^ 53) with (2 ^ 52 * 2) in Hk.
        set (b := bpow e * 2 ^ Z.pos n) in *.
        set (q := Z.pos p / 2 ^ Z.pos n) in *.
        assert (0 < 2 ^ 52) by reflexivity.
        nia.
  - split; [lia |]. split; [| exact Hle]. split; [lia |].
    assert (d <= 53) by lia.
    apply Z.lt_le_trans with (2 ^ d); [exact Hhi | apply Z.pow_le_mono_r; lia].
Qed.

Lemma round_nearest_even_bounds m l :
  m <= round_nearest_even m l <= m + 1.
Proof.
  destruct l as [| []]; cbn [round_nearest_even]; try lia.
  destruct (Z.even m); lia.
Qed.

(** A non-negative result of rounding: an infinity, or a finite number of
    exponent at least [lo] whose value is at least [k * 2^j]. *)
Definition at_least (lo k j : Z) (x : spec_float) : Prop :=
  x = S754_infinity false \/
  exists m e, x = S754_finite false m e /\ lo <= e /\ Z.pos m < 2 ^ 53 /\
              k * bpow j <= Z.pos m * bpow e.

Lemma at_least_weaken lo lo' k k' j x :
  lo' <= lo -> 0 <= k' <= k -> -5000 <= j ->
  at_least lo k j x -> at_least lo' k' j x.
Proof.
  intros Hlo Hk Hj [-> | (m & e & -> & He & Hm & Hle)]; [left; reflexivity |].
  right. exists m, e. split; [reflexivity |]. split; [lia |].
  split; [exact Hm |]. pose proof (bpow_pos j Hj). nia.
Qed.

Lemma binary_round_aux_lower mx ex lx k j :
  0 <= mx -> 0 < k <= 2 ^ 53 -> -1074 <= j -> -5000 <= ex ->
  k * bpow j <= mx * bpow ex ->
  at_least ex k j (binary_round_aux 53 1024 false mx ex lx).
Proof.
  intros Hm Hk Hj He Hle. unfold binary_round_aux.
  destruct (shr_fexp_lower mx ex lx k j Hm Hk Hj He Hle) as (He1 & Hm1 & Hle1).
  destruct (shr_fexp 53 1024 mx ex lx) as [mrs1 e1]. cbn [fst snd] in *.
  pose proof (round_nearest_even_bounds (shr_m mrs1) (loc_of_shr_record mrs1))
    as Hr.
  set (m2 := round_nearest_even (shr_m mrs1) (loc_of_shr_record mrs1)) in *.
  assert (He1' : -5000 <= e1) by lia.
  pose proof (bpow_pos e1 He1') as Hb1.
  assert (Hle2 : k * bpow j <= m2 * bpow e1) by nia.
  destruct (shr_fexp_lower m2 e1 loc_Exact k j ltac:(lia) Hk Hj He1' Hle2)
    as (He2 & Hm2 & Hle3).
  destruct (shr_fexp 53 1024 m2 e1 loc_Exact) as [mrs3 e3]. cbn [fst snd] in *.
  pose proof (bpow_pos j ltac:(lia)) as Hbj.
  destruct (shr_m mrs3) as [| m3 | m3]; [nia | | lia].
  destruct (e3 <=? 1024 - 53); [right | left; reflexivity].
  exists m3, e3. split; [reflexivity |]. split; [lia |].
  split; [lia | exact Hle3].
Qed.

Lemma shl_align_value mx ex ex' :
  -5000 <= ex -> -5000 <= ex' ->
  Z.min ex ex' <= snd (shl_align mx ex ex') /\
  Z.pos (fst (shl_align mx ex ex')) * bpow (snd (shl_align mx ex ex'))
  = Z.pos mx * bpow ex.
Proof.
  intros He He'. unfold shl_align.
  destruct (ex' - ex) as [| d | d] eqn:Ed; cbn [fst snd]; try (split; [lia | reflexivity]).
  split; [lia |].
  change (Pos.iter xO mx d) with (shift_pos d mx).
  rewrite shift_pos_correct. change (Z.pow_pos 2 d) with (2 ^ Z.pos d).
  replace ex with (ex' + Z.pos d) by lia.
  rewrite bpow_add by lia. ring.
Qed.

Lemma binary_round_lower mx ex k j :
  0 < k <= 2 ^ 53 -> -1074 <= j -> -5000 <= ex ->
  k * bpow j <= Z.pos mx * bpow ex ->
  at_least (Z.min ex (-1074)) k j (binary_round 53 1024 false mx ex).
Proof.
  intros Hk Hj He Hle. unfold binary_round.
  set (ex' := fexp 53 1024 (Z.pos (digits2_pos mx) + ex)).
  assert (He' : -1074 <= ex').
  { unfold ex', fexp, SpecFloat.emin. lia. }
  destruct (shl_align_value mx ex ex' He ltac:(lia)) as [Hez Hv].
  destruct (shl_align mx ex ex') as [mz ez]. cbn [fst snd] in *.
  apply (at_least_weaken ez _ k k); [lia | lia | lia |].
  apply binary_round_aux_lower; try assumption; [lia | lia | rewrite Hv; exact Hle].
Qed.

Lemma binary_normalize_lower z e k j :
  0 < k <= 2 ^ 53 -> -1074 <= j -> -5000 <= e ->
  k * bpow j <= z * bpow e ->
  at_least (Z.min e (-1074)) k j (binary_normalize 53 1024 z e false).
Proof.
  intros Hk Hj He Hle.
  pose proof (bpow_pos e He) as Hbe.
  pose proof (bpow_pos j ltac:(lia)) as Hbj.
  destruct z as [| p | p]; [nia | | nia].
  apply binary_round_lower; assumption.
Qed.

(** Validity gives the exponent its range and ties it to the size of the
    mantissa. *)
Lemma valid_finite s m e :
  valid_binary 53 1024 (S754_finite s m e) = true ->
  e = Z.max (Z.pos (digits2_pos m) + e - 53) (-1074) /\ e <= 971.
Proof.
  cbn [valid_binary]. unfold bounded, canonical_mantissa, fexp, SpecFloat.emin.
  change (3 - 1024 - 53) with (-1074). change (1024 - 53) with 971.
  intros H. apply andb_true_iff in H as [H1 H2].
  apply Z.eqb_eq in H1. apply Z.leb_le in H2. split; [lia | exact H2].
Qed.

Lemma at_least_valid lo k j x :
  valid_binary 53 1024 x = true -> at_least lo k j x -> at_least (-1074) k j x.
Proof.
  intros V [-> | (m & e & -> & He & Hm & Hle)]; [left; reflexivity |].
  right. exists m, e. apply valid_finite in V.
  split; [reflexivity |]. split; [lia |]. split; assumption.
Qed.

(** Adding to a number that is at least [k * 2^j] one that is at least
    [2^j]. *)
Lemma SFadd_lower x y k j :
  0 < k < 2 ^ 53 -> -1074 <= j ->
  at_least (-1074) k j x -> at_least (-1074) 1 j y ->
  at_least (-1074) (k + 1) j (SFadd 53 1024 x y).
Proof.
  intros Hk Hj [-> | (mx & ex & -> & Hex & _ & Hx)]
               [-> | (my & ey & -> & Hey & _ & Hy)];
    try (left; reflexivity).
  unfold SFadd, cond_Zopp.
  destruct (shl_align_value mx ex (Z.min ex ey) ltac:(lia) ltac:(lia)) as [_ Hvx].
  destruct (shl_align_value my ey (Z.min ex ey) ltac:(lia) ltac:(lia)) as [_ Hvy].
  assert (Sx : snd (shl_align mx ex (Z.min ex ey)) = Z.min ex ey).
  { unfold shl_align. destruct (Z.min ex ey - ex) eqn:E; cbn [snd]; lia. }
  assert (Sy : snd (shl_align my ey (Z.min ex ey)) = Z.min ex ey).
  { unfold shl_align. destruct (Z.min ex ey - ey) eqn:E; cbn [snd]; lia. }
  rewrite Sx in Hvx. rewrite Sy in Hvy.
  apply (at_least_weaken (Z.min (Z.min ex ey) (-1074)) _ (k + 1) (k + 1));
    [lia | lia | lia |].
  apply binary_normalize_lower; lia.
Qed.

(** The fiftieth part of a number that is at least 1: with [d] the number
    of bits of the mantissa, the number is at least [2^(d+e-1)] and the
    quotient at least [2^(d+e-7)]. *)
Lemma SFdiv_fifty_lower m e :
  valid_binary 53 1024 (S754_finite false m e) = true ->
  bpow 0 <= Z.pos m * bpow e ->
  at_least (-1074) 1 (Z.pos (digits2_pos m) + e - 7)
    (SFdiv 53 1024 (S754_finite false m e)
                   (S754_finite false 7036874417766400 (-47))).
Proof.
  intros V H1. apply valid_finite in V as [Hcanon Hmax].
  pose proof (digits2_pos_bounds m) as [Hlo Hhi].
  set (d := Z.pos (digits2_pos m)) in *.
  assert (He : -1074 <= e) by lia.
  pose proof (bpow_pos e ltac:(lia)) as Hbe.
  assert (Hmag : 1 <= d + e) by (apply magnitude_positive; [lia | exact H1]).
  unfold SFdiv, SFdiv_core_binary. cbn [Zdigits2 xorb].
  change (Z.pos (digits2_pos 7036874417766400)) with 53.
  fold d. unfold fexp, SpecFloat.emin.
  change (3 - 1024 - 53) with (-1074).
  set (e' := Z.min (Z.max (d + e - (53 + -47) - 53) (-1074)) (e - -47)).
  set (s := e - -47 - e').
  set (m' := match s with Z.pos _ => Z.shiftl (Z.pos m) s | 0 => Z.pos m | Z.neg _ => 0 end).
  assert (Hs : 0 <= s) by (unfold s, e'; lia).
  assert (Hm' : m' = Z.pos m * 2 ^ s).
  { unfold m'. destruct s as [| q | q] eqn:Es; [simpl; lia | | lia].
    apply Z.shiftl_mul_pow2. lia. }
  clearbody m'.
  destruct (Z.div_eucl m' 7036874417766400) as [q r] eqn:Ediv.
  assert (Hq : q = m' / 7036874417766400) by (unfold Z.div; rewrite Ediv; reflexivity).
  set (u := d + e - 7 - e').
  assert (Hu : 0 <= u) by (unfold u, e'; lia).
  assert (Hds : d - 1 + s = u + 53) by (unfold u, s; lia).
  assert (H2u : 0 < 2 ^ u) by (apply Z.pow_pos_nonneg; lia).
  assert (Hqu : 2 ^ u <= q).
  { rewrite Hq. apply Z.div_le_lower_bound; [lia |].
    rewrite Hm'.
    assert (2 ^ 53 * 2 ^ u <= Z.pos m * 2 ^ s).
    { rewrite <- Z.pow_add_r by lia. replace (53 + u) with (d - 1 + s) by lia.
      rewrite Z.pow_add_r by lia.
      assert (0 < 2 ^ s) by (apply Z.pow_pos_nonneg; lia). nia. }
    assert (7036874417766400 < 2 ^ 53) by reflexivity. nia. }
  apply (at_least_weaken e' _ 1 1); [unfold e'; lia | lia | lia |].
  apply binary_round_aux_lower; [lia | split; [lia | discriminate] | lia | unfold e'; lia |].
  replace (d + e - 7) with (e' + u) by (unfold u; lia).
  rewrite bpow_add by (unfold e'; lia).
  pose proof (bpow_pos e' ltac:(unfold e'; lia)). nia.
Qed.

(** Comparison of a valid positive number with a valid number that is at
    least as large. *)
Lemma SFleb_lower mt et x lo k j :
  valid_binary 53 1024 (S754_finite false mt et) = true ->
  valid_binary 53 1024 x = true ->
  at_least lo k j x -> -5000 <= lo ->
  Z.pos mt * bpow et <= k * bpow j ->
  SFleb (S754_finite false mt et) x = true.
Proof.
  intros Vt Vx [-> | (mx & ex & -> & Hex & _ & Hx)] Hlo Hle; [reflexivity |].
  apply valid_finite in Vt as [Ct _]. apply valid_finite in Vx as [Cx _].
  pose proof (digits2_pos_bounds mt) as [Hlt Hht].
  pose proof (digits2_pos_bounds mx) as [Hlx Hhx].
  assert (Hv : Z.pos mt * bpow et <= Z.pos mx * bpow ex) by lia.
  pose proof (bpow_pos ex ltac:(lia)) as Hbx.
  unfold SFleb, SFcompare.
  destruct (et ?= ex) eqn:Ecmp.
  - apply Z.compare_eq in Ecmp. subst ex.
    change (Pos.compare_cont Eq mt mx) with (mt ?= mx)%positive.
    destruct (mt ?= mx)%positive eqn:Em; try reflexivity.
    apply Pos.compare_gt_iff in Em. nia.
  - reflexivity.
  - exfalso. apply Z.compare_gt_iff in Ecmp.
    assert (Hdt : Z.pos (digits2_pos mt) = 53) by lia.
    assert (Hdx : Z.pos (digits2_pos mx) <= 53) by lia.
    rewrite Hdt in Hlt. change (2 ^ (53 - 1)) with (2 ^ 52) in Hlt.
    assert (Hmx : Z.pos mx < 2 ^ 53).
    { apply Z.lt_le_trans with (2 ^ Z.pos (digits2_pos mx)); [exact Hhx |].
      apply Z.pow_le_mono_r; lia. }
    assert (Hb : bpow ex * 2 <= bpow et).
    { change 2 with (2 ^ 1) at 1. rewrite <- bpow_add by lia. apply bpow_le; lia. }
    change (2 ^ 53) with (2 ^ 52 * 2) in Hmx.
    assert (0 < 2 ^ 52) by reflexivity. nia.
Qed.

(** [ieee_of_Z] on a positive integer: the double it gives is an infinity or
    a finite number that is at least 1. *)
Lemma ieee_of_Z_lower z :
  1 <= z -> at_least (-1074) 1 0 (Prim2SF (ieee_of_Z z)).
Proof.
  intros Hz. unfold ieee_of_Z.
  pose proof (bpow_pos 0 ltac:(lia)) as Hb0.
  destruct (binary_normalize_lower z 0 1 0) as [E | (m & e & E & He & Hm & Hle)];
    [split; [lia | discriminate] | lia | lia | nia | |]; rewrite E.
  - left. reflexivity.
  - cbn [SF2Prim]. apply (at_least_valid (-5000)); [apply Prim2SF_valid |].
    rewrite Z_ldexp_spec, of_uint63_spec, Uint63.of_Z_spec.
    rewrite Z.mod_small
      by (split; [lia | apply Z.lt_trans with (2 ^ 53); [exact Hm | reflexivity]]).
    change prec with 53. change emax with 1024.
    destruct (binary_normalize_lower (Z.pos m) 0 (Z.pos m) 0)
      as [F | (mF & eF & F & HeF & HmF & HleF)];
      [lia | lia | lia | lia | |]; rewrite F.
    + left. reflexivity.
    + cbn [SFldexp].
      apply (at_least_weaken (Z.min (eF + e) (-1074)) _ 1 1); [lia | lia | lia |].
      apply binary_round_lower; [split; [lia | discriminate] | lia | lia |].
      pose proof (bpow_mul eF e ltac:(lia) ltac:(lia) ltac:(lia)) as Hmul.
      pose proof (bpow_pos e ltac:(lia)).
      pose proof (bpow_pos eF ltac:(lia)).
      pose proof (bpow_pos (eF + e) ltac:(lia)).
      assert (Hfin : bpow 0 * bpow 0 <= Z.pos mF * bpow (eF + e) * bpow 0).
      { rewrite <- Z.mul_assoc, <- Hmul.
        apply Z.le_trans with (Z.pos m * bpow e * bpow 0); [nia |].
        nia. }
      nia.
Qed.

Lemma Prim2SF_fifty :
  Prim2SF (ieee_of_Z 50) = S754_finite false 7036874417766400 (-47).
Proof. reflexivity. Qed.

Lemma Prim2SF_zero : Prim2SF (ieee_of_Z 0) = S754_zero false.
Proof. reflexivity. Qed.

Lemma sums_lower inc j :
  -1074 <= j -> at_least (-1074) 1 j (Prim2SF inc) ->
  forall k, (k < 1000)%nat ->
    at_least (-1074) (Z.of_nat (S k)) j (Prim2SF (sums (A := ieee) inc (S k) (ieee_of_Z 0))).
Proof.
  intros Hj Hinc. induction k as [| k IH]; intros Hk.
  - cbn [sums add ieee]. rewrite add_spec, Prim2SF_zero.
    destruct Hinc as [E | (m & e & E & H)]; rewrite E.
    + left. reflexivity.
    + right. exists m, e. split; [reflexivity | exact H].
  - change (sums (A := ieee) inc (S (S k)) (ieee_of_Z 0))
      with (sums (A := ieee) inc (S k) (ieee_of_Z 0) + inc)%float.
    rewrite add_spec.
    replace (Z.of_nat (S (S k))) with (Z.of_nat (S k) + 1) by lia.
    apply SFadd_lower; [| exact Hj | apply IH; lia | exact Hinc].
    split; [lia |]. apply Z.lt_trans with 1000; [lia | reflexivity].
Qed.

(** From a target that is at least 1 (or infinite) the sums of its fiftieth
    part reach it within 128 additions. *)
Lemma reaches_from_one t :
  at_least (-1074) 1 0 (Prim2SF t) ->
  reaches (A := ieee) t (t / ieee_of_Z 50)%float 128 (ieee_of_Z 0) = true.
Proof.
  intros [E | (m & e & E & He & Hm & Hle)].
  - apply (reaches_sums _ _ 0); [lia |]. cbn [sums add geb ieee].
    rewrite leb_spec, add_spec, div_spec, E, Prim2SF_fifty, Prim2SF_zero.
    reflexivity.
  - pose proof (Prim2SF_valid t) as V. rewrite E in V.
    rewrite Z.mul_1_l in Hle.
    pose proof (magnitude_positive m e ltac:(lia) Hle) as Hmag.
    pose proof (digits2_pos_bounds m) as [_ Hhi].
    set (d := Z.pos (digits2_pos m)) in *.
    assert (Hinc : at_least (-1074) 1 (d + e - 7) (Prim2SF (t / ieee_of_Z 50))).
    { rewrite div_spec, E, Prim2SF_fifty. apply SFdiv_fifty_lower; assumption. }
    apply (reaches_sums _ _ 127); [lia |]. cbn [geb ieee].
    rewrite leb_spec, E.
    apply (SFleb_lower m e _ (-1074) 128 (d + e - 7)).
    + exact V.
    + apply Prim2SF_valid.
    + apply (sums_lower (t / ieee_of_Z 50) (d + e - 7) ltac:(lia) Hinc 127%nat). lia.
    + lia.
    + replace (128 * bpow (d + e - 7)) with (bpow (d + e - 7) * 2 ^ 7)
        by (change (2 ^ 7) with 128; lia).
      rewrite <- bpow_add by lia.
      replace (d + e - 7 + 7) with (e + d) by lia.
      rewrite bpow_add by lia.
      pose proof (bpow_pos e ltac:(lia)). nia.
Qed.

End Rounding.

(** With a digit the target is an integer that is not negative, and the
    interval is cleared within 128 callbacks. *)
Lemma ieee_digit_stops text :
  has_digit text = true ->
  running (ticks 128 (animateCounter ieee text)) = false.
Proof.
  intros Hd.
  pose proof (decimal_value_nonneg _ (digits_of_digits text)) as Hge.
  rewrite animateCounter_reaches, (parseInt_digits ieee text Hd).
  apply negb_false_iff.
  destruct (Z.eq_dec (decimal_value (digits_of text)) 0%Z) as [E | Hne].
  - rewrite E. vm_compute. reflexivity.
  - apply reaches_from_one, ieee_of_Z_lower. lia.
Qed.

(** Rounding matters: the fiftieth sum of 5/50 stays below 5, and a
    fifty-first callback is needed. *)
Example ieee_five_takes_51 :
  length (frames 60 (animateCounter ieee (js "5"))) = 51%nat /\
  running (ticks 50 (animateCounter ieee (js "5"))) = true /\
  running (ticks 51 (animateCounter ieee (js "5"))) = false.
Proof. vm_compute. repeat split. Qed.

(** ** The counter on "250+" *)

Definition stat_250 : Animation ieee := animateCounter ieee (js "250+").

(** The multiples of five up to 250, each followed by the suffix. *)
Definition fives : list jsstring :=
  map (fun k => decimal_string (5 * Z.of_nat k) ++ js "+") (seq 1 50).

Lemma stat_250_frames : frames 50 stat_250 = fives.
Proof. vm_compute. reflexivity. Qed.

Lemma stat_250_stops : running (ticks 50 stat_250) = false.
Proof. vm_compute. reflexivity. Qed.

(** C7, as stated, has the counter on "250+" go from "0+" to "250+".  The
    text "0+" is never on display: the element keeps its own text "250+"
    until the first callback, which writes "5+". *)
Lemma counter_never_displays_zero_counterexample :
  textContent stat_250 = js "250+" /\
  hd_error (frames 50 stat_250) = Some (js "5+") /\
  ~ In (js "0+") (textContent stat_250 :: frames 50 stat_250).
Proof.
  split; [reflexivity |]. split; [vm_compute; reflexivity |].
  rewrite stat_250_frames. intros H.
  apply (proj2 (list_elem_of_In _ _)) in H. revert H.
  apply (bool_decide_eq_false_1 _). vm_compute. reflexivity.
Qed.

(** C7 (amended): the timer period is 2000/50 ms; as long as the interval
    is set, the callback that follows k earlier ones runs at (k+1) periods
    and writes the floor of the accumulated value (k+1 additions of
    target/50 to 0) followed by the suffix when that value is below the
    target, and otherwise writes exactly the target followed by the suffix
    and clears the interval, after which nothing more is written.  For
    the text "250+" the value counts up from 0, which is never displayed:
    the 50 display updates write "5+", "10+", ..., "250+", the last one
    exact, and there is no further update. *)
Theorem counter_updates (A : Arithmetic) (text : jsstring) (k : nat) :
  let s0 := animateCounter A text in
  stepTime s0 = (2000 / 50)%Z
  /\ target s0 = parseInt A (digits_of text)
  /\ suffix s0 = non_digits text
  /\ accumulated s0 0 = of_Z A 0
  /\ accumulated s0 (S k) = add A (accumulated s0 k) (div A (target s0) (of_Z A 50))
  /\ (running (ticks k s0) = true ->
        elapsed (ticks (S k) s0) = (Z.of_nat (S k) * stepTime s0)%Z
        /\ (geb A (accumulated s0 (S k)) (target s0) = false ->
              textContent (ticks (S k) s0)
                = to_string A (floor A (accumulated s0 (S k))) ++ suffix s0
              /\ running (ticks (S k) s0) = true)
        /\ (geb A (accumulated s0 (S k)) (target s0) = true ->
              textContent (ticks (S k) s0) = to_string A (target s0) ++ suffix s0
              /\ running (ticks (S k) s0) = false))
  /\ (running (ticks k s0) = false ->
        ticks (S k) s0 = ticks k s0 /\ forall m, frames (k + m) s0 = frames k s0)
  /\ textContent stat_250 = js "250+"
  /\ frames 50 stat_250 = fives
  /\ length (frames 50 stat_250) = 50%nat
  /\ hd_error (frames 50 stat_250) = Some (js "5+")
  /\ last (frames 50 stat_250) = Some (js "250+")
  /\ (forall m, frames (50 + m) stat_250 = frames 50 stat_250).
Proof.
  intros s0.
  split; [reflexivity |]. split; [reflexivity |]. split; [reflexivity |].
  split; [reflexivity |]. split; [reflexivity |].
  split; [| split].
  - intros Hr. split; [| apply next_tick, Hr].
    destruct (ticks_running k s0 Hr) as (_ & _ & He).
    rewrite ticks_S. unfold tick. rewrite Hr.
    destruct (ticks_constants k s0) as (_ & _ & _ & Hp).
    destruct (geb A _ _); simpl; rewrite He, Hp; simpl; lia.
  - intros Hr. split; [rewrite ticks_S; apply tick_stopped, Hr |].
    intros m. apply frames_stable, Hr.
  - split; [reflexivity |].
    split; [apply stat_250_frames |].
    rewrite stat_250_frames.
    split; [reflexivity |]. split; [vm_compute; reflexivity |].
    split; [vm_compute; reflexivity |].
    intros m. rewrite <- stat_250_frames. apply frames_stable, stat_250_stops.
Qed.

(** ** Termination *)

(** C10: the interval is cleared if and only if the text of the element has
    a digit, in the double-precision arithmetic of the program.  With a
    digit the interval is cleared, within 128 callbacks whatever the digits
    are.  Without a digit the target is NaN, the comparison
    [current >= target] is false at every callback, the interval stays set
    for ever and every callback writes "NaN" followed by the suffix. *)
Theorem counter_stops_iff_digit (text : jsstring) :
  let d0 := animateCounter ieee text in
  ((exists k, running (ticks k d0) = false) <-> has_digit text = true)
  /\ (has_digit text = true -> running (ticks 128 d0) = false)
  /\ (has_digit text = false ->
        target d0 = PrimFloat.nan
        /\ forall k,
             geb ieee (accumulated d0 (S k)) (target d0) = false
             /\ running (ticks k d0) = true
             /\ textContent (ticks (S k) d0) = js "NaN" ++ non_digits text
             /\ length (frames k d0) = k).
Proof.
  intros d0. split; [| split].
  - split.
    + intros [k Hk]. destruct (has_digit text) eqn:Hd; [reflexivity |].
      unfold d0 in Hk. rewrite (no_digit_runs text Hd k) in Hk. discriminate.
    + intros Hd. exists 128%nat. apply ieee_digit_stops, Hd.
  - apply ieee_digit_stops.
  - intros Hd.
    split; [exact (no_digit_target (A := ieee) text Hd) |].
    intros k.
    split; [exact (no_digit_compare (A := ieee) text Hd k) |].
    split; [exact (no_digit_runs (A := ieee) text Hd k) |].
    split; [exact (no_digit_text (A := ieee) text Hd k) |].
    apply frames_length. exact (no_digit_runs (A := ieee) text Hd k).
Qed.

Example no_digit_frames :
  frames 3 (animateCounter ieee (js "n/a")) = [js "NaNn/a"; js "NaNn/a"; js "NaNn/a"].
Proof. vm_compute. reflexivity. Qed.

Example zero_target_frames :
  frames 3 (animateCounter ieee (js "0%")) = [js "0%"].
Proof. vm_compute. reflexivity. Qed.

(** All the digits count, wherever they stand: "1,5 k" counts to 15. *)
Example scattered_digits_frames :
  last (frames 60 (animateCounter ieee (js "1,5 k"))) = Some (js "15, k").
Proof. vm_compute. reflexivity. Qed.

(** ** The text the animation ends on *)

Lemma stopped_text {A : Arithmetic} text k :
  running (ticks k (animateCounter A text)) = false ->
  textContent (ticks k (animateCounter A text))
  = to_string A (target (animateCounter A text)) ++ non_digits text.
Proof.
  induction k as [| k IH]; intros H; [discriminate |].
  destruct (running (ticks k (animateCounter A text))) eqn:Hr.
  - destruct (next_tick k _ Hr) as [Hgo Hstop].
    destruct (geb A (accumulated (animateCounter A text) (S k))
                    (target (animateCounter A text))) eqn:Hg.
    + apply Hstop. reflexivity.
    + destruct (Hgo eq_refl) as [_ Hrun]. congruence.
  - rewrite ticks_S, tick_stopped by exact Hr. apply IH. reflexivity.
Qed.

Lemma filter_keep {T} (p : T -> bool) l :
  Forall (fun x => p x = true) l -> List.filter p l = l.
Proof.
  induction 1 as [| x l Hx _ IH]; [reflexivity |].
  simpl. rewrite Hx, IH. reflexivity.
Qed.

Lemma filter_drop {T} (p : T -> bool) l :
  Forall (fun x => p x = false) l -> List.filter p l = [].
Proof.
  induction 1 as [| x l Hx _ IH]; [reflexivity |].
  simpl. rewrite Hx. exact IH.
Qed.

Lemma digits_of_numeral ds sfx :
  Forall (fun c => is_digit c = true) ds ->
  Forall (fun c => is_digit c = false) sfx ->
  digits_of (ds ++ sfx) = ds /\ non_digits (ds ++ sfx) = sfx.
Proof.
  intros Hd Hs. unfold digits_of, non_digits. rewrite !List.filter_app.
  rewrite (filter_keep is_digit ds Hd), (filter_drop is_digit sfx Hs).
  rewrite (filter_drop (fun c => negb (is_digit c)) ds),
          (filter_keep (fun c => negb (is_digit c)) sfx).
  - rewrite app_nil_r. split; reflexivity.
  - eapply Forall_impl; [exact Hs |]. intros c Hc. simpl. rewrite Hc. reflexivity.
  - eapply Forall_impl; [exact Hd |]. intros c Hc. simpl. rewrite Hc. reflexivity.
Qed.

(** X25: when the animation has stopped, the element shows the target
    followed by all the non-digit characters of its first text, in their
    order.  That is the first text again when it was a numeral followed by
    characters that are not digits and the number read from the numeral is
    written back as the same digits; it is another text otherwise ("1,5 k"
    ends as "15, k"). *)
Theorem counter_final_text (A : Arithmetic) (text : jsstring) (k : nat) :
  running (ticks k (animateCounter A text)) = false ->
  textContent (ticks k (animateCounter A text))
    = to_string A (parseInt A (digits_of text)) ++ non_digits text /\
  (forall ds sfx,
     text = ds ++ sfx -> ds <> [] ->
     Forall (fun c => is_digit c = true) ds ->
     Forall (fun c => is_digit c = false) sfx ->
     to_string A (of_Z A (decimal_value ds)) = ds ->
     textContent (ticks k (animateCounter A text)) = text).
Proof.
  intros H. split; [apply (stopped_text text k H) |].
  intros ds sfx -> Hne Hd Hs Hprint.
  rewrite (stopped_text _ k H).
  destruct (digits_of_numeral ds sfx Hd Hs) as [Ed Es].
  change (target (animateCounter A (ds ++ sfx)))
    with (parseInt A (digits_of (ds ++ sfx))).
  rewrite Ed, Es. destruct ds as [| d ds]; [contradiction |].
  unfold parseInt. rewrite Hprint. reflexivity.
Qed.

Lemma counter_final_text_witness :
  textContent (ticks 50 (animateCounter ieee (js "250+"))) = js "250+".
Proof.
  destruct (counter_final_text ieee (js "250+") 50 stat_250_stops) as [_ H].
  apply (H (js "250") (js "+")).
  - reflexivity.
  - discriminate.
  - repeat constructor.
  - repeat constructor.
  - vm_compute. reflexivity.
Defined.

Example leading_zeros_lost :
  last (frames 60 (animateCounter ieee (js "007"))) = Some (js "7").
Proof. vm_compute. reflexivity. Qed.

End Counter.

(* ================================================================== *)
(** * One-shot reveals ([initScrollAnimations], [initCounterAnimation]) *)
(* ================================================================== *)

Module Reveal.

#[local] Set Warnings "-clear-no-such-hyp".

(** Elements are named by numbers. *)
Definition element := nat.

(** An [IntersectionObserverEntry], as far as the callbacks read it. *)
Record Entry := mkEntry {
  entry_target   : element;
  isIntersecting : bool
}.

(** ** Fade-in elements *)

(** [observed]: the targets of the observer; [visible]: the elements whose
    class list holds ['visible']; [revealed]: the elements whose class list
    was changed by the callback, in the order of the changes (the starts of
    the fade-in transition). *)
Record FadeState := mkFade {
  observed : gset element;
  visible  : gset element;
  revealed : list element
}.

(** [initScrollAnimations]: every [.fade-in] element is observed;
    [visible0] are the elements that carry ['visible'] already. *)
Definition initScrollAnimations (fadeElements : list element)
  (visible0 : gset element) : FadeState :=
  {| observed := list_to_set fadeElements;
     visible := visible0;
     revealed := [] |}.

(** The body of [entries.forEach] in the fade-in callback:
    [classList.add('visible')] and [observer.unobserve(target)]. *)
Definition fade_entry (st : FadeState) (e : Entry) : FadeState :=
  if isIntersecting e then
    {| observed := observed st ∖ {[ entry_target e ]};
       visible := {[ entry_target e ]} ∪ visible st;
       revealed := if decide (entry_target e ∈ visible st)
                   then revealed st
                   else revealed st ++ [entry_target e] |}
  else st.

Definition fade_callback (entries : list Entry) (st : FadeState) : FadeState :=
  fold_left fade_entry entries st.

(** The browser: of the threshold crossings that happened, the observer
    reports those of its targets, in one call of the callback (none when no
    target crossed). *)
Definition reported (targets : gset element) (crossings : list Entry) : list Entry :=
  List.filter (fun e => bool_decide (entry_target e ∈ targets)) crossings.

Definition fade_notify (st : FadeState) (crossings : list Entry) : FadeState :=
  fade_callback (reported (observed st) crossings) st.

Definition fade_run (batches : list (list Entry)) (st : FadeState) : FadeState :=
  fold_left fade_notify batches st.

(** ** Stat counters *)

(** [counted]: the elements whose class list holds ['counted'];
    [started]: the calls of [animateCounter], in order. *)
Record CounterState := mkCounter {
  stat_observed : gset element;
  counted       : gset element;
  started       : list element
}.

Definition initCounterAnimation (statNumbers : list element)
  (counted0 : gset element) : CounterState :=
  {| stat_observed := list_to_set statNumbers;
     counted := counted0;
     started := [] |}.

(** The body of [entries.forEach] in the counter callback. *)
Definition counter_entry (st : CounterState) (e : Entry) : CounterState :=
  if isIntersecting e && negb (bool_decide (entry_target e ∈ counted st)) then
    {| stat_observed := stat_observed st;
       counted := {[ entry_target e ]} ∪ counted st;
       started := started st ++ [entry_target e] |}
  else st.

Definition counter_callback (entries : list Entry) (st : CounterState) : CounterState :=
  fold_left counter_entry entries st.

Definition counter_notify (st : CounterState) (crossings : list Entry) : CounterState :=
  counter_callback (reported (stat_observed st) crossings) st.

Definition counter_run (batches : list (list Entry)) (st : CounterState) : CounterState :=
  fold_left counter_notify batches st.

(** The number of times [x] occurs in a list of elements. *)
Definition occurrences (x : element) (l : list element) : nat :=
  length (List.filter (fun y => bool_decide (y = x)) l).

(** ** Counting occurrences *)

Lemma occurrences_app x l1 l2 :
  occurrences x (l1 ++ l2) = (occurrences x l1 + occurrences x l2)%nat.
Proof. unfold occurrences. rewrite List.filter_app, length_app. reflexivity. Qed.

Lemma occurrences_absent x l : x ∉ l -> occurrences x l = 0%nat.
Proof.
  unfold occurrences. induction l as [| y l IH]; intros H; [reflexivity |].
  apply not_elem_of_cons in H as [Hne Hl]. simpl.
  rewrite bool_decide_eq_false_2 by congruence. apply IH, Hl.
Qed.

Lemma occurrences_NoDup x l : NoDup l -> (occurrences x l <= 1)%nat.
Proof.
  induction 1 as [| y l Hy _ IH]; [unfold occurrences; simpl; lia |].
  change (y :: l) with ([y] ++ l). rewrite occurrences_app.
  unfold occurrences at 1. simpl. case_bool_decide as E; simpl; [| exact IH].
  subst y. rewrite (occurrences_absent x l Hy). lia.
Qed.

(** ** The fade-in observer *)

(** Whatever the callback has revealed is visible, is no longer observed,
    and was revealed once. *)
Definition fade_inv (st : FadeState) : Prop :=
  NoDup (revealed st) /\
  forall x, x ∈ revealed st -> x ∈ visible st /\ x ∉ observed st.

Lemma fade_entry_inv st e : fade_inv st -> fade_inv (fade_entry st e).
Proof.
  intros [Hnd Hin]. unfold fade_entry.
  destruct (isIntersecting e); [| split; assumption].
  case_decide as Hv; simpl; split.
  - exact Hnd.
  - intros x Hx. destruct (Hin x Hx). set_solver.
  - apply NoDup_app. repeat split; [exact Hnd | | apply NoDup_singleton].
    intros x Hx ->%list_elem_of_singleton. destruct (Hin _ Hx). contradiction.
  - intros x [Hx | ->%list_elem_of_singleton]%elem_of_app.
    + destruct (Hin x Hx). set_solver.
    + set_solver.
Qed.

Lemma fade_callback_inv entries : forall st,
  fade_inv st -> fade_inv (fade_callback entries st).
Proof.
  induction entries as [| e entries IH]; intros st H; [exact H |].
  apply IH, fade_entry_inv, H.
Qed.

Lemma fade_run_inv batches : forall st,
  fade_inv st -> fade_inv (fade_run batches st).
Proof.
  induction batches as [| b batches IH]; intros st H; [exact H |].
  apply IH, fade_callback_inv, H.
Qed.

Lemma init_fade_inv fadeElements visible0 :
  fade_inv (initScrollAnimations fadeElements visible0).
Proof. split; [apply NoDup_nil_2 | intros x Hx; inversion Hx]. Qed.

(** The callback never observes anything, and never hides anything. *)
Lemma fade_entry_mono st e :
  observed (fade_entry st e) ⊆ observed st /\
  visible st ⊆ visible (fade_entry st e).
Proof. unfold fade_entry. destruct (isIntersecting e); simpl; set_solver. Qed.

Lemma fade_callback_mono entries : forall st,
  observed (fade_callback entries st) ⊆ observed st /\
  visible st ⊆ visible (fade_callback entries st).
Proof.
  induction entries as [| e entries IH]; intros st; [set_solver |].
  simpl. destruct (IH (fade_entry st e)), (fade_entry_mono st e). set_solver.
Qed.

Lemma fade_run_mono batches : forall st,
  observed (fade_run batches st) ⊆ observed st /\
  visible st ⊆ visible (fade_run batches st).
Proof.
  induction batches as [| b batches IH]; intros st; [set_solver |].
  simpl. destruct (IH (fade_notify st b)).
  destruct (fade_callback_mono (reported (observed st) b) st).
  unfold fade_notify in *. set_solver.
Qed.

(** Crossings of elements that are not observed do not reach the callback. *)
Lemma reported_none targets crossings :
  (forall e, In e crossings -> entry_target e ∉ targets) ->
  reported targets crossings = [].
Proof.
  unfold reported. induction crossings as [| e crossings IH]; intros H;
    [reflexivity |].
  simpl. rewrite bool_decide_eq_false_2 by (apply H; left; reflexivity).
  apply IH. intros e' He'. apply H. right. exact He'.
Qed.

Lemma fade_notify_unobserved st crossings :
  (forall e, In e crossings -> entry_target e ∉ observed st) ->
  fade_notify st crossings = st.
Proof. intros H. unfold fade_notify. rewrite (reported_none _ _ H). reflexivity. Qed.

(** ** The counter observer *)

Definition counter_inv (st : CounterState) : Prop :=
  NoDup (started st) /\ forall x, x ∈ started st -> x ∈ counted st.

Lemma counter_entry_inv st e : counter_inv st -> counter_inv (counter_entry st e).
Proof.
  intros [Hnd Hin]. unfold counter_entry.
  destruct (isIntersecting e); simpl; [| split; assumption].
  case_bool_decide as Hc; simpl; [split; assumption |].
  split.
  - apply NoDup_app. repeat split; [exact Hnd | | apply NoDup_singleton].
    intros x Hx ->%list_elem_of_singleton. apply Hc, Hin, Hx.
  - intros x [Hx | ->%list_elem_of_singleton]%elem_of_app; [| set_solver].
    specialize (Hin x Hx). set_solver.
Qed.

Lemma counter_callback_inv entries : forall st,
  counter_inv st -> counter_inv (counter_callback entries st).
Proof.
  induction entries as [| e entries IH]; intros st H; [exact H |].
  apply IH, counter_entry_inv, H.
Qed.

Lemma counter_run_inv batches : forall st,
  counter_inv st -> counter_inv (counter_run batches st).
Proof.
  induction batches as [| b batches IH]; intros st H; [exact H |].
  apply IH, counter_callback_inv, H.
Qed.

Lemma init_counter_inv statNumbers counted0 :
  counter_inv (initCounterAnimation statNumbers counted0).
Proof. split; [apply NoDup_nil_2 | intros x Hx; inversion Hx]. Qed.

(** A counted element is never started again. *)
Lemma counter_entry_counted x st e :
  x ∈ counted st ->
  x ∈ counted (counter_entry st e) /\
  occurrences x (started (counter_entry st e)) = occurrences x (started st).
Proof.
  intros Hx. unfold counter_entry.
  destruct (isIntersecting e); simpl; [| split; [exact Hx | reflexivity]].
  case_bool_decide as Hc; simpl; [split; [exact Hx | reflexivity] |].
  split; [set_solver |].
  rewrite occurrences_app. unfold occurrences at 2. simpl.
  rewrite bool_decide_eq_false_2 by (intros E; apply Hc; rewrite E; exact Hx).
  simpl. lia.
Qed.

Lemma counter_callback_counted x entries : forall st,
  x ∈ counted st ->
  x ∈ counted (counter_callback entries st) /\
  occurrences x (started (counter_callback entries st)) = occurrences x (started st).
Proof.
  induction entries as [| e entries IH]; intros st Hx; [split; [exact Hx | reflexivity] |].
  destruct (counter_entry_counted x st e Hx) as [Hc Ho].
  destruct (IH _ Hc) as [Hc' Ho']. simpl. rewrite Ho', Ho. split; [exact Hc' | reflexivity].
Qed.

Lemma counter_run_counted x batches : forall st,
  x ∈ counted st ->
  x ∈ counted (counter_run batches st) /\
  occurrences x (started (counter_run batches st)) = occurrences x (started st).
Proof.
  induction batches as [| b batches IH]; intros st Hx; [split; [exact Hx | reflexivity] |].
  destruct (counter_callback_counted x (reported (stat_observed st) b) st Hx) as [Hc Ho].
  destruct (IH _ Hc) as [Hc' Ho'].
  change (counter_run (b :: batches) st)
    with (counter_run batches (counter_callback (reported (stat_observed st) b) st)).
  rewrite Ho', Ho. split; [exact Hc' | reflexivity].
Qed.

(** C8: over any sequence of notifications, a fade-in element is revealed at
    most once, and once it has been it is visible and no longer observed; a
    qualifying intersection of an observed element makes it visible and
    stops its observation; from then on it is never observed again and its
    crossings of the threshold, in or out, change nothing.  A stat counter
    is started at most once: an element that was started carries the
    ['counted'] marker, and for an element that carries it no later entry or
    exit starts the count again. *)
Theorem one_shot_animations
  (fadeElements : list element) (visible0 : gset element)
  (statNumbers : list element) (counted0 : gset element)
  (batches : list (list Entry)) (x : element) :
  let fade := fade_run batches (initScrollAnimations fadeElements visible0) in
  let stat := counter_run batches (initCounterAnimation statNumbers counted0) in
  (occurrences x (revealed fade) <= 1)%nat
  /\ (x ∈ revealed fade -> x ∈ visible fade /\ x ∉ observed fade)
  /\ (forall e, isIntersecting e = true -> entry_target e ∈ observed fade ->
        entry_target e ∈ visible (fade_notify fade [e]) /\
        entry_target e ∉ observed (fade_notify fade [e]))
  /\ (x ∉ observed fade ->
        forall more,
          (x ∉ observed (fade_run more fade)) /\
          (forall crossings,
             (forall e, In e crossings -> entry_target e = x) ->
             fade_notify (fade_run more fade) crossings = fade_run more fade))
  /\ (occurrences x (started stat) <= 1)%nat
  /\ (x ∈ started stat -> x ∈ counted stat)
  /\ (x ∈ counted stat ->
        forall more,
          (x ∈ counted (counter_run more stat)) /\
          occurrences x (started (counter_run more stat))
          = occurrences x (started stat)).
Proof.
  intros fade stat.
  destruct (fade_run_inv batches _ (init_fade_inv fadeElements visible0))
    as [Hnd Hrev]. fold fade in Hnd, Hrev.
  destruct (counter_run_inv batches _ (init_counter_inv statNumbers counted0))
    as [Hnd' Hst]. fold stat in Hnd', Hst.
  split; [apply occurrences_NoDup, Hnd |].
  split; [apply Hrev |].
  split.
  { intros e Hi Ho. unfold fade_notify, reported. simpl.
    rewrite bool_decide_eq_true_2 by exact Ho. simpl.
    unfold fade_entry. rewrite Hi. simpl. set_solver. }
  split.
  { intros Hx more.
    assert (Hx' : x ∉ observed (fade_run more fade)).
    { destruct (fade_run_mono more fade) as [Hsub _]. set_solver. }
    split; [exact Hx' |].
    intros crossings Hc. apply fade_notify_unobserved.
    intros e He. rewrite (Hc e He). exact Hx'. }
  split; [apply occurrences_NoDup, Hnd' |].
  split; [apply Hst |].
  intros Hx more. apply counter_run_counted, Hx.
Qed.

(** ** A worked run *)

(** Element 7 enters, leaves and enters again. *)
Definition in_out_in : list (list Entry) :=
  [ [mkEntry 7 true]; [mkEntry 7 false]; [mkEntry 7 true] ].

Example counter_started_once :
  started (counter_run in_out_in (initCounterAnimation [7%nat] ∅)) = [7%nat].
Proof. vm_compute. reflexivity. Qed.

Example fade_revealed_once :
  revealed (fade_run in_out_in (initScrollAnimations [7%nat] ∅)) = [7%nat].
Proof. vm_compute. reflexivity. Qed.

(** ** What starts an animation *)

Lemma counter_entry_mono st e :
  stat_observed (counter_entry st e) = stat_observed st /\
  counted st ⊆ counted (counter_entry st e).
Proof.
  unfold counter_entry. destruct (_ && _); simpl; split; set_solver.
Qed.

Lemma counter_callback_mono entries : forall st,
  stat_observed (counter_callback entries st) = stat_observed st /\
  counted st ⊆ counted (counter_callback entries st).
Proof.
  induction entries as [| e entries IH]; intros st; [split; set_solver |].
  change (counter_callback (e :: entries) st)
    with (counter_callback entries (counter_entry st e)).
  destruct (IH (counter_entry st e)) as [E1 S1].
  destruct (counter_entry_mono st e) as [E2 S2].
  split; [rewrite E1, E2; reflexivity | set_solver].
Qed.

Lemma counter_run_mono batches : forall st,
  stat_observed (counter_run batches st) = stat_observed st /\
  counted st ⊆ counted (counter_run batches st).
Proof.
  induction batches as [| b batches IH]; intros st; [split; set_solver |].
  change (counter_run (b :: batches) st)
    with (counter_run batches (counter_notify st b)).
  destruct (IH (counter_notify st b)) as [E1 S1].
  destruct (counter_callback_mono (reported (stat_observed st) b) st) as [E2 S2].
  unfold counter_notify in *. split; [rewrite E1, E2; reflexivity | set_solver].
Qed.

Lemma counter_callback_started x entries : forall st,
  x ∈ started (counter_callback entries st) ->
  x ∈ started st \/ (In (mkEntry x true) entries /\ x ∉ counted st).
Proof.
  induction entries as [| e entries IH]; intros st H; [left; exact H |].
  simpl in H. apply IH in H as [H | [Hin Hc]].
  - unfold counter_entry in H. destruct e as [t b]. simpl in H.
    destruct b; simpl in H; [| left; exact H].
    case_bool_decide as Ht; simpl in H; [left; exact H |].
    apply elem_of_app in H as [H | ->%list_elem_of_singleton]; [left; exact H |].
    right. split; [left; reflexivity | exact Ht].
  - right. split; [right; exact Hin |].
    destruct (counter_entry_mono st e). set_solver.
Qed.

Lemma fade_callback_revealed x entries : forall st,
  x ∈ revealed (fade_callback entries st) ->
  x ∈ revealed st \/ (In (mkEntry x true) entries /\ x ∉ visible st).
Proof.
  induction entries as [| e entries IH]; intros st H; [left; exact H |].
  simpl in H. apply IH in H as [H | [Hin Hv]].
  - unfold fade_entry in H. destruct e as [t b]. simpl in H.
    destruct b; simpl in H; [| left; exact H].
    case_decide as Ht; [left; exact H |].
    apply elem_of_app in H as [H | ->%list_elem_of_singleton]; [left; exact H |].
    right. split; [left; reflexivity | exact Ht].
  - right. split; [right; exact Hin |].
    destruct (fade_entry_mono st e). set_solver.
Qed.

Lemma reported_In targets crossings e :
  In e (reported targets crossings) -> In e crossings /\ entry_target e ∈ targets.
Proof.
  unfold reported. rewrite filter_In. intros [H Ht].
  split; [exact H | apply bool_decide_eq_true_1 in Ht; exact Ht].
Qed.

(** X26: nothing is animated unasked: a stat counter that was started is one
    of the observed stat elements, did not carry ['counted'] at first, and
    was reported intersecting in some notification; a fade-in element that
    was revealed is one of the observed fade-in elements, was not visible at
    first, and was reported intersecting in some notification. *)
Theorem animations_need_an_intersection
  (fadeElements : list element) (visible0 : gset element)
  (statNumbers : list element) (counted0 : gset element)
  (batches : list (list Entry)) (x : element) :
  (x ∈ started (counter_run batches (initCounterAnimation statNumbers counted0)) ->
     (x ∈ statNumbers) /\ (x ∉ counted0) /\
     exists batch, In batch batches /\ In (mkEntry x true) batch) /\
  (x ∈ revealed (fade_run batches (initScrollAnimations fadeElements visible0)) ->
     (x ∈ fadeElements) /\ (x ∉ visible0) /\
     exists batch, In batch batches /\ In (mkEntry x true) batch).
Proof.
  split.
  - induction batches as [| b batches IH] using rev_ind; [intros H; inversion H |].
    unfold counter_run. rewrite fold_left_app. simpl.
    fold (counter_run batches (initCounterAnimation statNumbers counted0)).
    set (st := counter_run batches (initCounterAnimation statNumbers counted0)) in *.
    intros H. apply counter_callback_started in H as [H | [Hin Hc]].
    + destruct (IH H) as (? & ? & batch & ? & ?).
      repeat split; try assumption. exists batch.
      split; [apply in_or_app; left |]; assumption.
    + apply reported_In in Hin as [Hin Ht]. simpl in Ht.
      destruct (counter_run_mono batches (initCounterAnimation statNumbers counted0))
        as [Ho Hsub]. fold st in Ho, Hsub. rewrite Ho in Ht. simpl in Ht, Hsub.
      repeat split; [set_solver | set_solver |].
      exists b. split; [apply in_or_app; right; left; reflexivity | exact Hin].
  - induction batches as [| b batches IH] using rev_ind; [intros H; inversion H |].
    unfold fade_run. rewrite fold_left_app. simpl.
    fold (fade_run batches (initScrollAnimations fadeElements visible0)).
    set (st := fade_run batches (initScrollAnimations fadeElements visible0)) in *.
    intros H. apply fade_callback_revealed in H as [H | [Hin Hv]].
    + destruct (IH H) as (? & ? & batch & ? & ?).
      repeat split; try assumption. exists batch.
      split; [apply in_or_app; left |]; assumption.
    + apply reported_In in Hin as [Hin Ht]. simpl in Ht.
      destruct (fade_run_mono batches (initScrollAnimations fadeElements visible0))
        as [Ho Hsub]. fold st in Ho, Hsub. simpl in Ho, Hsub.
      repeat split; [set_solver | set_solver |].
      exists b. split; [apply in_or_app; right; left; reflexivity | exact Hin].
Qed.

(** An element that is not a stat element, and one that only ever leaves. *)
Example strangers_are_not_started :
  started (counter_run [ [mkEntry 3 true; mkEntry 7 false]; [mkEntry 7 false] ]
                       (initCounterAnimation [7%nat] ∅)) = [].
Proof. vm_compute. reflexivity. Qed.

End Reveal.

(* ================================================================== *)
(** * Mobile menu ([initMobileMenu], [closeMobileMenu], the resize listener) *)
(* ================================================================== *)

Module Menu.

#[local] Open Scope Z_scope.

(** The two elements the menu code looks up: [None] when the page has no
    such element, otherwise whether its class list holds ['active']. *)
Record Menu := mkMenu {
  navMenu          : option bool;
  mobileMenuToggle : option bool
}.

(** [closeMobileMenu] *)
Definition closeMobileMenu (m : Menu) : Menu :=
  match navMenu m, mobileMenuToggle m with
  | Some _, Some _ => {| navMenu := Some false; mobileMenuToggle := Some false |}
  | _, _ => m
  end.

(** [initMobileMenu] registers its two listeners when both elements exist. *)
Definition listening (m : Menu) : bool :=
  match navMenu m, mobileMenuToggle m with
  | Some _, Some _ => true
  | _, _ => false
  end.

(** The click listener of the toggle: [classList.toggle('active')] on both. *)
Definition toggle_listener (m : Menu) : Menu :=
  match navMenu m, mobileMenuToggle m with
  | Some a, Some b => {| navMenu := Some (negb a); mobileMenuToggle := Some (negb b) |}
  | _, _ => m
  end.

(** Where a click landed: [navMenu.contains(e.target)] and
    [mobileMenuToggle.contains(e.target)]. *)
Record Target := mkTarget {
  in_menu   : bool;
  in_toggle : bool
}.

(** The click listener of the document. *)
Definition document_listener (t : Target) (m : Menu) : Menu :=
  if listening m then
    if negb (in_menu t) && negb (in_toggle t) then closeMobileMenu m else m
  else m.

Inductive Event :=
| Click (t : Target)
| Resize (innerWidth : Z).

(** A click inside the toggle runs the listener of the toggle, and every click
    then reaches the document; a resize runs the listener of the window. *)
Definition handle (m : Menu) (e : Event) : Menu :=
  match e with
  | Click t =>
      let m := if in_toggle t then toggle_listener m else m in
      document_listener t m
  | Resize w => if 768 <? w then closeMobileMenu m else m
  end.

Definition run (es : list Event) (m : Menu) : Menu := fold_left handle es m.

Definition on_toggle : Event := Click {| in_menu := false; in_toggle := true |}.
Definition outside : Event := Click {| in_menu := false; in_toggle := false |}.

Definition closed : Menu := {| navMenu := Some false; mobileMenuToggle := Some false |}.
Definition opened : Menu := {| navMenu := Some true; mobileMenuToggle := Some true |}.

(** Both elements exist and agree on ['active']. *)
Definition in_step (m : Menu) : Prop :=
  exists a, navMenu m = Some a /\ mobileMenuToggle m = Some a.

Lemma closeMobileMenu_in_step m : in_step m -> closeMobileMenu m = closed.
Proof. intros (a & Hn & Ht). unfold closeMobileMenu. rewrite Hn, Ht. reflexivity. Qed.

Lemma handle_in_step m e : in_step m -> in_step (handle m e).
Proof.
  intros (a & Hn & Ht). destruct m as [n t]. simpl in Hn, Ht. subst n t.
  destruct e as [[im it] | w];
    cbv [handle document_listener listening toggle_listener closeMobileMenu
         navMenu mobileMenuToggle in_menu in_toggle].
  - destruct it, im, a; simpl; eexists; split; reflexivity.
  - destruct (768 <? w); eexists; split; reflexivity.
Qed.

Lemma run_in_step es : forall m, in_step m -> in_step (run es m).
Proof.
  induction es as [| e es IH]; intros m H; [exact H |].
  apply IH, handle_in_step, H.
Qed.

Lemma run_app es es' m : run (es ++ es') m = run es' (run es m).
Proof. apply fold_left_app. Qed.

(** X10: when both elements exist and agree at first, they agree after any
    clicks and resizes: the menu and its toggle are open together or closed
    together. *)
Theorem menu_and_toggle_agree (m : Menu) (es : list Event) (a : bool) :
  navMenu m = Some a -> mobileMenuToggle m = Some a ->
  exists b, navMenu (run es m) = Some b /\ mobileMenuToggle (run es m) = Some b.
Proof. intros Hn Ht. apply run_in_step. exists a. split; assumption. Qed.

Lemma menu_and_toggle_agree_witness :
  exists b, navMenu (run [on_toggle; Resize 500; on_toggle; on_toggle] closed) = Some b
         /\ mobileMenuToggle (run [on_toggle; Resize 500; on_toggle; on_toggle] closed)
            = Some b.
Proof.
  apply (menu_and_toggle_agree closed _ false); reflexivity.
Defined.

(** X11: when either element is missing, no click and no resize changes
    anything. *)
Theorem menu_missing_element_inert (m : Menu) (es : list Event) :
  navMenu m = None \/ mobileMenuToggle m = None ->
  run es m = m.
Proof.
  intros H.
  assert (E : forall e, handle m e = m).
  { destruct m as [n t]. simpl in H.
    intros [[im it] | w];
      cbv [handle document_listener listening toggle_listener closeMobileMenu
           navMenu mobileMenuToggle in_menu in_toggle];
      destruct H as [-> | ->]; try destruct n; try destruct t;
      try destruct it; try destruct (768 <? w); reflexivity. }
  induction es as [| e es IH]; [reflexivity |].
  simpl. rewrite E. exact IH.
Qed.

Lemma menu_missing_element_inert_witness :
  run [on_toggle; outside; Resize 900] {| navMenu := Some true; mobileMenuToggle := None |}
  = {| navMenu := Some true; mobileMenuToggle := None |}.
Proof.
  apply menu_missing_element_inert. right. reflexivity.
Defined.

(** X12: whatever happened before, a click outside the menu and the toggle,
    and a resize to more than 768 pixels, leave the menu closed; a resize to
    768 pixels or fewer leaves it as it is. *)
Theorem menu_closing_events (m : Menu) (es : list Event) (a : bool) (w : Z) :
  navMenu m = Some a -> mobileMenuToggle m = Some a ->
  run (es ++ [outside]) m = closed /\
  (768 < w -> run (es ++ [Resize w]) m = closed) /\
  (w <= 768 -> run (es ++ [Resize w]) m = run es m).
Proof.
  intros Hn Ht.
  assert (H : in_step (run es m)) by (apply run_in_step; exists a; auto).
  rewrite !run_app. simpl.
  pose proof (closeMobileMenu_in_step _ H) as Hc.
  destruct H as (b & Hn' & Ht').
  unfold document_listener, listening. rewrite Hn', Ht'. simpl.
  repeat split.
  - exact Hc.
  - intros Hw. apply Z.ltb_lt in Hw. rewrite Hw. exact Hc.
  - intros Hw. apply Z.ltb_ge in Hw. rewrite Hw. reflexivity.
Qed.

Lemma menu_closing_events_witness :
  run ([on_toggle] ++ [Resize 900]) closed = closed.
Proof.
  destruct (menu_closing_events closed [on_toggle] false 900 eq_refl eq_refl)
    as (_ & H & _).
  apply H. lia.
Defined.

(** X13: n clicks on the toggle of a closed menu leave it open when n is odd
    and closed when n is even. *)
Theorem toggle_clicks_alternate (n : nat) :
  run (repeat on_toggle n) closed = if Nat.even n then closed else opened.
Proof.
  induction n as [| n IH]; [reflexivity |].
  replace (repeat on_toggle (S n)) with (repeat on_toggle n ++ [on_toggle])
    by (rewrite <- repeat_cons; reflexivity).
  rewrite run_app, IH, Nat.even_succ, <- Nat.negb_even.
  destruct (Nat.even n); reflexivity.
Qed.

End Menu.

(* ================================================================== *)
(** * Smooth scrolling ([initSmoothScroll]) *)
(* ================================================================== *)

Module SmoothScroll.

#[local] Open Scope Z_scope.

(** What the click listener of a navigation link reads of the document: the
    [offsetTop] of the element of each id, and the [offsetHeight] of the
    [.header] element ([None] when there is none). *)
Record Document := mkDocument {
  ids    : gmap string Z;
  header : option Z
}.

(** [document.getElementById]: no element has the empty id. *)
Definition getElementById (d : Document) (id : string) : option Z :=
  if decide (id = "") then None else ids d !! id.

(** What a click on a link comes to: whether [preventDefault] was called,
    whether the listener ended in a TypeError, the [top] passed to
    [window.scrollTo], and the mobile menu afterwards. *)
Record Outcome := mkOutcome {
  defaultPrevented : bool;
  threw            : bool;
  scrollTo         : option Z;
  menu             : Menu.Menu
}.

(** The click listener of a [.nav-link] whose [href] attribute is [href]
    ([None] when the link has none: [href.startsWith] is then a TypeError). *)
Definition on_link_click (d : Document) (href : option string) (m : Menu.Menu)
  : Outcome :=
  match href with
  | None =>
      {| defaultPrevented := false; threw := true; scrollTo := None; menu := m |}
  | Some (String "#" targetId) =>
      match getElementById d targetId with
      | Some offsetTop =>
          match header d with
          | Some headerHeight =>
              let targetPosition := offsetTop - headerHeight in
              {| defaultPrevented := true; threw := false;
                 scrollTo := Some targetPosition;
                 menu := Menu.closeMobileMenu m |}
          | None =>
              {| defaultPrevented := true; threw := true;
                 scrollTo := None; menu := m |}
          end
      | None =>
          {| defaultPrevented := true; threw := false;
             scrollTo := None; menu := m |}
      end
  | Some _ =>
      {| defaultPrevented := false; threw := false; scrollTo := None; menu := m |}
  end.

Lemma on_link_click_anchor d id m :
  on_link_click d (Some (Nav.anchor id)) m
  = match getElementById d id with
    | Some offsetTop =>
        match header d with
        | Some headerHeight =>
            {| defaultPrevented := true; threw := false;
               scrollTo := Some (offsetTop - headerHeight);
               menu := Menu.closeMobileMenu m |}
        | None =>
            {| defaultPrevented := true; threw := true;
               scrollTo := None; menu := m |}
        end
    | None =>
        {| defaultPrevented := true; threw := false;
           scrollTo := None; menu := m |}
    end.
Proof. reflexivity. Qed.

Lemma on_link_click_other d s m :
  (forall rest, s <> Nav.anchor rest) ->
  on_link_click d (Some s) m
  = {| defaultPrevented := false; threw := false; scrollTo := None; menu := m |}.
Proof.
  intros H. destruct s as [| c rest]; [reflexivity |].
  destruct c as [[] [] [] [] [] [] [] []]; try reflexivity.
  destruct (H rest). reflexivity.
Qed.

Lemma anchor_or_not s :
  (exists rest, s = Nav.anchor rest) \/ (forall rest, s <> Nav.anchor rest).
Proof.
  destruct s as [| c rest]; [right; intros r; discriminate |].
  destruct (Ascii.ascii_dec c "#") as [-> | Hc].
  - left. exists rest. reflexivity.
  - right. intros r E. injection E as E _. contradiction.
Qed.

Lemma anchor_injective a b : Some (Nav.anchor a) = Some (Nav.anchor b) -> a = b.
Proof. intros [= E]. exact E. Qed.

(** X14: the listener asks for a scroll exactly when the href is [#id] for
    the id of an element of the page and the page has a header, and then to
    the top of that element less the height of the header, closing the
    mobile menu; it cancels the default jump for every href that starts
    with [#], also when no scroll follows; and it leaves the menu alone
    whenever it does not scroll. *)
Theorem link_click_outcome (d : Document) (href : option string) (m : Menu.Menu)
  (z : Z) :
  (scrollTo (on_link_click d href m) = Some z <->
     exists id offsetTop headerHeight,
       href = Some (Nav.anchor id) /\ id <> "" /\
       ids d !! id = Some offsetTop /\ header d = Some headerHeight /\
       z = offsetTop - headerHeight) /\
  (defaultPrevented (on_link_click d href m) = true <->
     exists rest, href = Some (Nav.anchor rest)) /\
  (scrollTo (on_link_click d href m) = None ->
     menu (on_link_click d href m) = m) /\
  (scrollTo (on_link_click d href m) <> None ->
     menu (on_link_click d href m) = Menu.closeMobileMenu m).
Proof.
  destruct href as [s |].
  - destruct (anchor_or_not s) as [[id ->] | Hno].
    + rewrite on_link_click_anchor. unfold getElementById.
      destruct (decide (id = "")) as [-> | Hid];
        [| destruct (ids d !! id) as [t |] eqn:Ht;
           [destruct (header d) as [h |] eqn:Hh |]]; simpl.
      * repeat split; try discriminate; try (intros; contradiction); eauto.
        intros (id & t & h & E & Hid & _).
        apply anchor_injective in E. congruence.
      * repeat split; try discriminate; eauto.
        -- intros [= <-]. exists id, t, h. repeat split; assumption.
        -- intros (id' & t' & h' & E & _ & Ht' & Hh' & ->).
           apply anchor_injective in E. subst id'. congruence.
      * repeat split; try discriminate; try (intros; contradiction); eauto.
        intros (id' & t' & h' & _ & _ & _ & Hh' & _). discriminate.
      * repeat split; try discriminate; try (intros; contradiction); eauto.
        intros (id' & t' & h' & E & _ & Ht' & _).
        apply anchor_injective in E. subst id'. congruence.
    + rewrite (on_link_click_other d s m Hno). simpl.
      repeat split; try discriminate; try (intros; contradiction).
      * intros (id & ? & ? & E & _). exfalso. apply (Hno id). congruence.
      * intros (r & E). exfalso. apply (Hno r). congruence.
  - simpl. repeat split; try discriminate; try (intros; contradiction).
    + intros (? & ? & ? & E & _). discriminate.
    + intros (? & E). discriminate.
Qed.

(** X15: a click on the link of a section, once the scroll it asks for has
    arrived at [y], meets the highlighting of [updateActiveNav]: with a header
    of at most 100 pixels, [y] at least 100, a section taller than what the
    header leaves of the 100 pixels and no later section holding the position,
    the link clicked is the one highlighted; with a header taller than 100
    pixels the section clicked does not hold the position the highlighting
    looks at. *)
Theorem clicked_link_is_highlighted
  (d : Document) (m : Menu.Menu) (before after : list Nav.PageSection)
  (section : Nav.PageSection) (headerHeight : Z) (navLinks : list Nav.NavLink) :
  header d = Some headerHeight ->
  Nav.sectionId section <> "" ->
  ids d !! Nav.sectionId section = Some (Nav.offsetTop section) ->
  let sections := before ++ section :: after in
  let y := Nav.offsetTop section - headerHeight in
  scrollTo (on_link_click d (Some (Nav.anchor (Nav.sectionId section))) m) = Some y /\
  (headerHeight <= 100 -> 100 <= y ->
   100 - headerHeight < Nav.offsetHeight section ->
   (forall s, In s after ->
      ~ (Nav.offsetTop s <= y + 100 < Nav.offsetTop s + Nav.offsetHeight s)) ->
   forall link, In link (Nav.updateActiveNav sections y navLinks) ->
     (Nav.active link = true
      <-> Nav.href link = Some (Nav.anchor (Nav.sectionId section)))) /\
  (100 < headerHeight ->
   ~ (Nav.offsetTop section <= y + 100
        < Nav.offsetTop section + Nav.offsetHeight section)).
Proof.
  intros Hh Hid Htop sections y. split; [| split].
  - rewrite on_link_click_anchor. unfold getElementById.
    rewrite decide_False by exact Hid. rewrite Htop, Hh. reflexivity.
  - intros Hle Hy Hheight Hafter link Hin.
    rewrite Nav.updateActiveNav_closed in Hin. unfold Nav.spec_updateActiveNav in Hin.
    apply Z.ltb_ge in Hy. rewrite Hy in Hin.
    rewrite (Nav.winning_section_last before section after) in Hin.
    + revert Hin. apply Nav.activate_active.
    + apply Nav.in_bounds_iff. unfold y. lia.
    + intros s Hs. specialize (Hafter s Hs).
      destruct (Nav.in_bounds (y + 100) s) eqn:E; [| reflexivity].
      apply Nav.in_bounds_iff in E. contradiction.
  - intros Hgt. unfold y. lia.
Qed.

Definition page_document : Document :=
  {| ids := {[ "home" := 0; "about" := 600; "projects" := 1000 ]};
     header := Some 80 |}.

Lemma clicked_link_is_highlighted_witness :
  scrollTo (on_link_click page_document (Some "#about") Menu.opened) = Some 520.
Proof.
  refine (proj1 (clicked_link_is_highlighted page_document Menu.opened
                   [Nav.mkSection "home" 0 600] [Nav.mkSection "projects" 1000 800]
                   (Nav.mkSection "about" 600 500) 80 Nav.page_links _ _ _)).
  - reflexivity.
  - discriminate.
  - reflexivity.
Defined.

(** A link to a section the page does not have: the jump is cancelled and
    nothing else happens. *)
Example dead_link :
  on_link_click page_document (Some "#contact") Menu.opened
  = {| defaultPrevented := true; threw := false; scrollTo := None;
       menu := Menu.opened |}.
Proof. reflexivity. Qed.

Example external_link :
  on_link_click page_document (Some "https://example.org") Menu.opened
  = {| defaultPrevented := false; threw := false; scrollTo := None;
       menu := Menu.opened |}.
Proof. reflexivity. Qed.

End SmoothScroll.

(* ================================================================== *)
(** * The form message and its removal timer ([showFormMessage]) *)
(* ================================================================== *)

Module Messages.

Import Form.

(** The [.form-message] elements of the page, in document order, each with
    the number it was created under; the number the next one will get; and
    the removal timers that have been set and have not fired. *)
Record State := mkState {
  shown   : list (nat * FormMessage);
  next    : nat;
  pending : list nat
}.

Definition initial : State := {| shown := []; next := 0; pending := [] |}.

(** [showFormMessage(message, type)]: the first message found is removed, a
    new element is appended, and a timer is set to remove that element. *)
Definition showFormMessage (text : string) (type : MessageType) (st : State) : State :=
  let remaining := tail (shown st) in
  let messageElement := (next st, {| innerHTML := text; className := type |}) in
  {| shown := remaining ++ [messageElement];
     next := S (next st);
     pending := pending st ++ [next st] |}.

(** The timer of element [id] fires: [messageElement.remove()], which does
    nothing when the element is no longer in the page.  A timer fires once. *)
Definition on_timeout (id : nat) (st : State) : State :=
  if bool_decide (id ∈ pending st) then
    {| shown := List.filter (fun el => negb (Nat.eqb (fst el) id)) (shown st);
       next := next st;
       pending := List.filter (fun t => negb (Nat.eqb t id)) (pending st) |}
  else st.

Inductive Event :=
| Show (text : string) (type : MessageType)
| Timeout (id : nat).

Definition handle (st : State) (e : Event) : State :=
  match e with
  | Show text type => showFormMessage text type st
  | Timeout id => on_timeout id st
  end.

Definition run (es : list Event) (st : State) : State := fold_left handle es st.

Lemma filter_length_le {A} (f : A -> bool) l :
  (length (List.filter f l) <= length l)%nat.
Proof.
  induction l as [| x l IH]; simpl; [lia |].
  destruct (f x); simpl; lia.
Qed.

Lemma handle_at_most_one st e :
  (length (shown st) <= 1)%nat -> (length (shown (handle st e)) <= 1)%nat.
Proof.
  intros H. destruct e as [text type | id]; simpl.
  - rewrite length_app. destruct (shown st) as [| x [| y l]]; simpl in *; lia.
  - unfold on_timeout. case_bool_decide; simpl; [| exact H].
    pose proof (filter_length_le (fun el => negb (Nat.eqb (fst el) id)) (shown st)).
    lia.
Qed.

(** X16: a page that shows at most one form message keeps showing at most
    one, whatever messages are shown and whatever timers fire. *)
Theorem at_most_one_message (st : State) (es : list Event) :
  (length (shown st) <= 1)%nat -> (length (shown (run es st)) <= 1)%nat.
Proof.
  revert st. induction es as [| e es IH]; intros st H; [exact H |].
  apply IH, handle_at_most_one, H.
Qed.

Lemma at_most_one_message_witness :
  (length (shown (run [Show "a" error; Show "b" success; Timeout 0] initial)) <= 1)%nat.
Proof.
  apply (at_most_one_message initial). simpl. lia.
Defined.

(** Every message on the page has its timer set. *)
Definition timers_set (st : State) : Prop :=
  forall el, In el (shown st) -> In (fst el) (pending st).

Lemma handle_timers_set st e : timers_set st -> timers_set (handle st e).
Proof.
  intros H el. destruct e as [text type | id]; simpl.
  - rewrite !in_app_iff. intros [Hin | [<- | []]].
    + left. apply H. destruct (shown st); [contradiction | right; exact Hin].
    + right. left. reflexivity.
  - unfold on_timeout. case_bool_decide; simpl; [| apply H].
    rewrite !filter_In. intros [Hin Hne]. split; [apply H, Hin | exact Hne].
Qed.

Lemma run_timers_set es : forall st, timers_set st -> timers_set (run es st).
Proof.
  induction es as [| e es IH]; intros st H; [exact H |].
  apply IH, handle_timers_set, H.
Qed.

(** X17: no message stays for ever and none is taken down by the timer of
    another: after any events, every message on the page still has its own
    removal timer pending, and the timer of any other message, when it
    fires, leaves it on the page. *)
Theorem message_removed_by_own_timer_only
  (es : list Event) (id : nat) (msg : FormMessage) :
  In (id, msg) (shown (run es initial)) ->
  In id (pending (run es initial)) /\
  (forall other, other <> id ->
     In (id, msg) (shown (on_timeout other (run es initial)))) /\
  ~ In (id, msg) (shown (on_timeout id (run es initial))).
Proof.
  intros Hin.
  assert (Hp : In id (pending (run es initial))).
  { apply (run_timers_set es initial) in Hin; [exact Hin |].
    intros el []. }
  split; [exact Hp |]. split.
  - intros other Hne. unfold on_timeout. case_bool_decide; simpl; [| exact Hin].
    apply filter_In. split; [exact Hin |].
    simpl. apply negb_true_iff, Nat.eqb_neq. congruence.
  - unfold on_timeout. rewrite bool_decide_eq_true_2
      by (apply list_elem_of_In; exact Hp).
    simpl. rewrite filter_In. simpl. rewrite Nat.eqb_refl. intros [_ ?].
    discriminate.
Qed.

Lemma message_removed_by_own_timer_only_witness :
  In 1%nat (pending (run [Show "a" error; Show "b" success; Timeout 0] initial)).
Proof.
  refine (proj1 (message_removed_by_own_timer_only
                   [Show "a" error; Show "b" success; Timeout 0] 1
                   {| innerHTML := "b"; className := success |} _)).
  left. reflexivity.
Defined.

End Messages.

(* ================================================================== *)
(** * The delayed wrapper ([throttle]) *)
(* ================================================================== *)

Module Throttle.

Section Wrapper.

(** The arguments a call passes on. *)
Context {Args : Type}.

(** [timeout]: the timer that is set, with the arguments its callback will
    pass; [invoked]: the calls of the wrapped function so far. *)
Record State := mkState {
  timeout : option Args;
  invoked : list Args
}.

Definition idle : State := {| timeout := None; invoked := [] |}.

(** [executedFunction(...args)]: the timer that is set is cleared and a new
    one is set; the wrapped function is not called. *)
Definition executedFunction (args : Args) (st : State) : State :=
  {| timeout := Some args; invoked := invoked st |}.

(** [later], the callback of the timer, [wait] ms after it was set and
    unless it was cleared: it calls the wrapped function. *)
Definition later (st : State) : State :=
  match timeout st with
  | Some args => {| timeout := None; invoked := invoked st ++ [args] |}
  | None => st
  end.

Inductive Event :=
| Call (args : Args)
| Fire.

Definition handle (st : State) (e : Event) : State :=
  match e with
  | Call args => executedFunction args st
  | Fire => later st
  end.

Definition run (es : list Event) (st : State) : State := fold_left handle es st.

(** The arguments of the calls among the events, in order. *)
Fixpoint calls_of (es : list Event) : list Args :=
  match es with
  | [] => []
  | Call args :: es' => args :: calls_of es'
  | Fire :: es' => calls_of es'
  end.

Lemma run_calls (l : list Args) : forall st,
  invoked (run (map Call l) st) = invoked st /\
  (l <> [] -> timeout (run (map Call l) st) = last l).
Proof.
  induction l as [| a l IH]; intros st; [split; [reflexivity | congruence] |].
  destruct (IH (executedFunction a st)) as [Hi Ht]. simpl. unfold run in *.
  rewrite Hi. split; [reflexivity |]. intros _.
  destruct l as [| b l]; [reflexivity |].
  rewrite Ht by discriminate. reflexivity.
Qed.

(** X18: calls that come before the timer fires are collapsed: however many
    they are, the wrapped function is not called while they keep coming, and
    when the timer fires at last it is called once, with the arguments of the
    last call. *)
Theorem burst_collapses (st : State) (l : list Args) (a : Args) :
  invoked (run (map Call (l ++ [a])) st) = invoked st /\
  invoked (run (map Call (l ++ [a]) ++ [Fire]) st) = invoked st ++ [a] /\
  timeout (run (map Call (l ++ [a]) ++ [Fire]) st) = None /\
  run (map Call (l ++ [a]) ++ [Fire; Fire]) st
  = run (map Call (l ++ [a]) ++ [Fire]) st.
Proof.
  destruct (run_calls (l ++ [a]) st) as [Hi Ht].
  assert (Hl : timeout (run (map Call (l ++ [a])) st) = Some a).
  { rewrite Ht by (destruct l; discriminate). apply last_snoc. }
  split; [exact Hi |].
  assert (Hf : run (map Call (l ++ [a]) ++ [Fire]) st
               = {| timeout := None; invoked := invoked st ++ [a] |}).
  { unfold run in *. rewrite fold_left_app. simpl.
    unfold later. rewrite Hl, Hi. reflexivity. }
  assert (Hff : run (map Call (l ++ [a]) ++ [Fire; Fire]) st
                = later (run (map Call (l ++ [a]) ++ [Fire]) st)).
  { unfold run. rewrite !fold_left_app. reflexivity. }
  rewrite Hff, Hf. repeat split.
Qed.

(** What is still to be passed on: the arguments of the timer that is set. *)
Definition held (st : State) : list Args :=
  match timeout st with Some a => [a] | None => [] end.

Lemma sublist_snoc_replace (l m : list Args) (h : list Args) a :
  (length h <= 1)%nat -> sublist (l ++ h) m -> sublist (l ++ [a]) (m ++ [a]).
Proof.
  intros Hh H. apply sublist_app; [| reflexivity].
  transitivity (l ++ h); [apply sublist_inserts_r; reflexivity | exact H].
Qed.

Lemma run_sublist es : forall st seen,
  sublist (invoked st ++ held st) seen ->
  sublist (invoked (run es st) ++ held (run es st)) (seen ++ calls_of es).
Proof.
  induction es as [| e es IH]; intros st seen H; simpl.
  - rewrite app_nil_r. exact H.
  - destruct e as [a |]; simpl.
    + replace (seen ++ a :: calls_of es) with ((seen ++ [a]) ++ calls_of es)
        by (rewrite <- app_assoc; reflexivity).
      apply IH. unfold held at 1. simpl.
      apply (sublist_snoc_replace _ _ (held st)); [| exact H].
      unfold held. destruct (timeout st); simpl; lia.
    + apply IH. unfold later. destruct (timeout st) as [a |] eqn:E; [| exact H].
      assert (Hh : held st = [a]) by (unfold held; rewrite E; reflexivity).
      rewrite Hh in H. unfold held. simpl. rewrite app_nil_r. exact H.
Qed.

(** X19: the wrapped function is called at most once per call of the
    wrapper, never with arguments of its own making: the arguments it has
    been called with are, in order, among those the wrapper was called
    with. *)
Theorem invoked_among_calls (es : list Event) :
  sublist (invoked (run es idle)) (calls_of es) /\
  (length (invoked (run es idle)) <= length (calls_of es))%nat.
Proof.
  assert (H : sublist (invoked (run es idle)) (calls_of es)).
  { transitivity (invoked (run es idle) ++ held (run es idle));
      [apply sublist_inserts_r; reflexivity |].
    apply (run_sublist es idle []). apply sublist_nil_l. }
  split; [exact H | apply sublist_length, H].
Qed.

End Wrapper.

Arguments State : clear implicits.

(** Scroll events 30 ms apart through a wrapper: one call, after the last. *)
Example one_call_per_burst :
  invoked (run [Call 10%Z; Call 40%Z; Call 70%Z; Fire; Call 400%Z; Fire] idle)
  = [70%Z; 400%Z].
Proof. reflexivity. Qed.

End Throttle.

(* ================================================================== *)
(** * The typing effect ([initTypingEffect]) *)
(* ================================================================== *)

Module Typing.

Import JS.

#[local] Open Scope Z_scope.

(** The [.typing-text] element and the locals of the animation.  One
    animation is recorded; ['typed'] is set when it starts and never removed,
    so that a second one never starts while the first one runs. *)
Record State := mkState {
  textContent : jsstring;     (* element.textContent *)
  opacity     : Z;            (* element.style.opacity *)
  typed       : bool;         (* classList.contains('typed') *)
  text        : jsstring;     (* the text taken when the animation starts *)
  i           : nat;
  scheduled   : bool;         (* a call of typeWriter is waiting on a timer *)
  delay       : Z;            (* the delay of that timer, in ms *)
  clock       : Z             (* ms since the animation started *)
}.

(** [initTypingEffect] on an element showing [content]: the element is made
    transparent and observed. *)
Definition initTypingEffect (content : jsstring) : State :=
  {| textContent := content; opacity := 0; typed := false;
     text := []; i := 0; scheduled := false; delay := 0; clock := 0 |}.

(** [text.charAt(i)] *)
Definition charAt (s : jsstring) (i : nat) : jsstring :=
  match (s : list N) !! i with
  | Some c => [c]
  | None => []
  end.

(** The callback of the observer, for one entry. *)
Definition on_intersect (isIntersecting : bool) (st : State) : State :=
  if isIntersecting && negb (typed st) then
    {| textContent := []; opacity := 1; typed := true;
       text := textContent st; i := 0;
       scheduled := true; delay := 300; clock := 0 |}
  else st.

(** The timer fires: [typeWriter]. *)
Definition typeWriter (st : State) : State :=
  if scheduled st then
    if (i st <? length (text st))%nat then
      {| textContent := textContent st ++ charAt (text st) (i st);
         opacity := opacity st; typed := typed st; text := text st;
         i := S (i st);
         scheduled := true; delay := 80; clock := clock st + delay st |}
    else
      {| textContent := textContent st; opacity := opacity st;
         typed := typed st; text := text st; i := i st;
         scheduled := false; delay := delay st; clock := clock st + delay st |}
  else st.

(** The state after [k] periods of the timer. *)
Definition typing (content : jsstring) (k : nat) : State :=
  Nat.iter k typeWriter (on_intersect true (initTypingEffect content)).

Lemma typing_S content k : typing content (S k) = typeWriter (typing content k).
Proof. reflexivity. Qed.

(** While characters are left, [k] of them have been typed. *)
Lemma typing_progress content k :
  (k <= length content)%nat ->
  typing content k
  = {| textContent := take k content; opacity := 1; typed := true;
       text := content; i := k; scheduled := true;
       delay := if k is O then 300 else 80;
       clock := if k is O then 0 else 300 + 80 * (Z.of_nat k - 1) |}.
Proof.
  induction k as [| k IH]; intros Hk; [reflexivity |].
  rewrite typing_S, IH by lia. unfold typeWriter.
  cbn [scheduled i text textContent opacity typed delay clock].
  rewrite (proj2 (Nat.ltb_lt k (length content))) by lia.
  destruct (lookup_lt_is_Some_2 content k ltac:(lia)) as [c Hc].
  rewrite (take_S_r _ _ _ Hc).
  unfold charAt. rewrite Hc.
  f_equal. destruct k; lia.
Qed.

Lemma typing_done content k :
  (length content < k)%nat ->
  typing content k
  = {| textContent := content; opacity := 1; typed := true;
       text := content; i := length content; scheduled := false;
       delay := if length content is O then 300 else 80;
       clock := 300 + 80 * Z.of_nat (length content) |}.
Proof.
  induction k as [| k IH]; intros Hk; [lia |].
  rewrite typing_S.
  destruct (decide (k = length content)) as [-> | Hne].
  - rewrite typing_progress by lia. unfold typeWriter.
    cbn [scheduled i text textContent opacity typed delay clock].
    rewrite Nat.ltb_irrefl, firstn_all. f_equal.
    destruct (length content); lia.
  - rewrite IH by lia. reflexivity.
Qed.

(** X20: once started, the typing effect shows after k periods of its timer
    the first k characters of the text the element had; the text is whole
    again after as many periods as it has characters (300 ms for the first,
    80 ms for each other one), one more period ends the timer, and no later
    intersection starts the effect again. *)
Theorem typing_restores_text (content : jsstring) (k : nat) (b : bool) :
  textContent (typing content k) = take k content /\
  textContent (typing content (length content)) = content /\
  (scheduled (typing content k) = true <-> (k <= length content)%nat) /\
  ((0 < k <= length content)%nat ->
     clock (typing content k) = 300 + 80 * (Z.of_nat k - 1)) /\
  on_intersect b (typing content k) = typing content k.
Proof.
  assert (Hk : (k <= length content)%nat \/ (length content < k)%nat) by lia.
  split; [| split; [| split; [| split]]].
  - destruct Hk as [Hk | Hk].
    + rewrite typing_progress by exact Hk. reflexivity.
    + rewrite typing_done by exact Hk. simpl.
      rewrite take_ge by lia. reflexivity.
  - rewrite typing_progress by lia. simpl. apply firstn_all.
  - destruct Hk as [Hk | Hk].
    + rewrite typing_progress by exact Hk. simpl. tauto.
    + rewrite typing_done by exact Hk. simpl. split; [discriminate | lia].
  - intros Hk'. rewrite typing_progress by lia. simpl.
    destruct k; [lia | reflexivity].
  - destruct Hk as [Hk | Hk].
    + rewrite typing_progress by exact Hk. destruct b; reflexivity.
    + rewrite typing_done by exact Hk. destruct b; reflexivity.
Qed.

Example typing_halfway : textContent (typing (js "Engineer") 4) = js "Engi".
Proof. reflexivity. Qed.

End Typing.

(* ================================================================== *)
(** * The scroll listeners together ([initScrollEffects] and the update) *)
(* ================================================================== *)

Module Scrolling.

#[local] Open Scope Z_scope.

(** The navigation links and whether the class list of the header holds
    ['scrolled']. *)
Record Page := mkPage {
  navLinks : list Nav.NavLink;
  scrolled : bool
}.

(** The scroll listener of [initScrollEffects]: ['scrolled'] is added above
    50 pixels and removed otherwise. *)
Definition header_listener (scrollY : Z) : bool :=
  if 50 <? scrollY then true else false.

(** At load the links are updated once; the header is left as the markup has
    it, since [initScrollEffects] only registers its listener. *)
Definition init (sections : list Nav.PageSection) (scrollY : Z) (p : Page) : Page :=
  {| navLinks := Nav.updateActiveNav sections scrollY (navLinks p);
     scrolled := scrolled p |}.

(** A scroll event runs the listeners in the order they were registered
    (the third one, of the parallax effect, writes the style of the shapes
    only). *)
Definition on_scroll (sections : list Nav.PageSection) (p : Page) (scrollY : Z) : Page :=
  {| navLinks := Nav.updateActiveNav sections scrollY (navLinks p);
     scrolled := header_listener scrollY |}.

Definition run (sections : list Nav.PageSection) (scrolls : list Z) (p : Page) : Page :=
  fold_left (on_scroll sections) scrolls p.

(** X21: after a scroll event the header is marked scrolled exactly when the
    offset of that event is above 50, whatever the earlier offsets were, and
    while it is not marked the link to [#home] is the active one; before the
    first scroll event the header is as the markup has it, whatever the
    offset the page was loaded at. *)
Theorem header_follows_last_scroll
  (sections : list Nav.PageSection) (p : Page) (y0 : Z) (ys : list Z) (y : Z) :
  let q := run sections (ys ++ [y]) (init sections y0 p) in
  (scrolled q = true <-> 50 < y) /\
  (scrolled q = false ->
     forall link, In link (navLinks q) ->
       (Nav.active link = true <-> Nav.href link = Some "#home")) /\
  scrolled (init sections y0 p) = scrolled p.
Proof.
  intros q.
  assert (E : q = on_scroll sections (run sections ys (init sections y0 p)) y).
  { unfold q, run. rewrite fold_left_app. reflexivity. }
  rewrite E. simpl. unfold header_listener.
  split; [| split; [| reflexivity]].
  - destruct (50 <? y) eqn:Hy.
    + apply Z.ltb_lt in Hy. tauto.
    + apply Z.ltb_ge in Hy. split; [discriminate | lia].
  - destruct (50 <? y) eqn:Hy; [discriminate |]. intros _ link.
    apply Z.ltb_ge in Hy.
    rewrite Nav.updateActiveNav_closed. unfold Nav.spec_updateActiveNav.
    rewrite (proj2 (Z.ltb_lt y 100)) by lia.
    apply Nav.activate_active.
Qed.

(** A page reloaded half-way down: the links are right at once, the header
    only after the first scroll event. *)
Example reload_half_way :
  scrolled (init Nav.page_sections 700 {| navLinks := Nav.page_links; scrolled := false |})
  = false /\
  map Nav.active
    (navLinks (init Nav.page_sections 700
                 {| navLinks := Nav.page_links; scrolled := false |}))
  = [false; true; false].
Proof. split; reflexivity. Qed.

End Scrolling.
